(** * refactor_controllers.py: the try/catch-to-asyncHandler rewriter

    A shallow embedding of [src/refactor_controllers.py] and the properties
    of its specification.

    The script is one regular-expression substitution: [re.sub] finds every
    handler of one stereotyped shape and replaces it by the text computed by
    [replace_func].  The embedding therefore has three layers:

    - Python text: a [str] is a list of code points, with the [str] methods
      the script calls ([startswith], slicing, [split], [join], [rstrip],
      [replace]);
    - the backtracking matcher of [re] for the constructs the pattern uses
      (literals, greedy and lazy repetition of a character class, greedy
      optional groups, capturing groups), and the [re.sub] loop over it;
    - the script itself: [pattern], [replace_func], [refactor_controller] and
      the command-line driver. *)

From Stdlib Require Import String Ascii List NArith Arith Bool Lia.
Import ListNotations.

Set Implicit Arguments.

(** ** Python text *)

(** A character is a Unicode code point; a [str] is a sequence of them. *)
Abbreviation char := N (only parsing).
Abbreviation str := (list N) (only parsing).

(** The text of a literal of the source, code point by code point (the
    literals of the script are ASCII). *)
Fixpoint text (s : string) : str :=
  match s with
  | EmptyString => []
  | String a s' => N_of_ascii a :: text s'
  end.

Arguments text s%_string.

Definition nl : char := 10%N.
Definition space : char := 32%N.

(** [str.isspace] on one code point, the test behind both [\s] of a [str]
    pattern and [str.rstrip()]: the code points whose bidirectional class is
    WS, B or S or whose category is Zs. *)
Definition is_space (c : char) : bool :=
  ((9 <=? c) && (c <=? 13)
   || (28 <=? c) && (c <=? 32)
   || (c =? 133) || (c =? 160) || (c =? 5760)
   || (8192 <=? c) && (c <=? 8202)
   || (c =? 8232) || (c =? 8233) || (c =? 8239) || (c =? 8287)
   || (c =? 12288))%N.

(** [\w] on an ASCII code point: a letter, a digit or the underscore. *)
Definition ascii_word (c : char) : bool :=
  ((48 <=? c) && (c <=? 57)
   || (65 <=? c) && (c <=? 90)
   || (97 <=? c) && (c <=? 122)
   || (c =? 95))%N.

(** [s.startswith(p)] *)
Fixpoint startswith (p s : str) : bool :=
  match p, s with
  | [], _ => true
  | _ :: _, [] => false
  | a :: p', b :: s' => N.eqb a b && startswith p' s'
  end.

(** [sep.join(parts)] *)
Fixpoint join (sep : str) (parts : list str) : str :=
  match parts with
  | [] => []
  | [p] => p
  | p :: ps => p ++ sep ++ join sep ps
  end.

(** [s.split(sep)] for a one-character separator: the pieces between the
    separators, empty pieces kept, so that there is always one piece more
    than there are separators. *)
Fixpoint split (sep : char) (s : str) : list str :=
  match s with
  | [] => [[]]
  | c :: s' =>
      if N.eqb c sep then [] :: split sep s'
      else match split sep s' with
           | [] => [[c]]
           | l :: ls => (c :: l) :: ls
           end
  end.

(** [s.lstrip()] and [s.rstrip()] *)
Fixpoint lstrip (s : str) : str :=
  match s with
  | [] => []
  | c :: s' => if is_space c then lstrip s' else s
  end.

Definition rstrip (s : str) : str := rev (lstrip (rev s)).

(** [s.replace(old, new)] for a non-empty [old]: every occurrence of [old],
    found left to right without overlap, is replaced.  The scan goes on after
    the occurrence it replaced, so the recursion is bounded by the length of
    the text still to scan. *)
Fixpoint replace_scan (n : nat) (old new s : str) : str :=
  match n with
  | 0 => s
  | S n' =>
      match s with
      | [] => []
      | c :: s' =>
          if startswith old s
          then new ++ replace_scan n' old new (skipn (length old) s)
          else c :: replace_scan n' old new s'
      end
  end.

Definition replace (old new s : str) : str :=
  replace_scan (length s) old new s.

(** ** The regular expressions of [re] *)

(** Character classes of the pattern: [\w], [\s], and [.] under [re.DOTALL]. *)
Inductive cclass : Type :=
| Word
| Space
| Any.

(** The constructs of the pattern.  Repetition is only ever applied to a
    character class there. *)
Inductive regex : Type :=
| Lit (l : str)                  (* literal text, metacharacters escaped *)
| Seq (r1 r2 : regex)            (* r1r2 *)
| Star (c : cclass)              (* c*   greedy *)
| Plus (c : cclass)              (* c+   greedy *)
| LazyStar (c : cclass)          (* c*?  non-greedy *)
| Opt (r : regex)                (* (?:r)?  greedy *)
| Group (n : nat) (r : regex).   (* (r), the n-th capturing group *)

(** The captures of a match in progress: latest binding first. *)
Definition groups : Type := list (nat * str).

Definition set_group (n : nat) (v : str) (g : groups) : groups := (n, v) :: g.

Fixpoint group (g : groups) (n : nat) : option str :=
  match g with
  | [] => None
  | (m, v) :: g' => if Nat.eqb m n then Some v else group g' n
  end.

(** The text between two points of a scan: what was consumed going from the
    text [s] to its suffix [s']. *)
Definition consumed (s s' : str) : str := firstn (length s - length s') s.

Section Engine.

(** The word characters beyond ASCII come from the Unicode database
    ([str.isalnum]), which the development takes as it is. *)
Variable unicode_alnum : char -> bool.

Definition is_word (c : char) : bool :=
  if (c <? 128)%N then ascii_word c else unicode_alnum c.

Definition in_class (cl : cclass) (c : char) : bool :=
  match cl with
  | Word => is_word c
  | Space => is_space c
  | Any => true
  end.

Section Matcher.

Variable A : Type.

(** Greedy repetition: take characters of the class while there are any, and
    give way one character at a time when the rest of the pattern fails. *)
Fixpoint greedy (cl : cclass) (s : str) (k : str -> option A) : option A :=
  match s with
  | c :: s' =>
      if in_class cl c then
        match greedy cl s' k with
        | Some a => Some a
        | None => k s
        end
      else k s
  | [] => k []
  end.

(** Non-greedy repetition: try the rest of the pattern first, and take one
    more character of the class only when it fails. *)
Fixpoint lazy (cl : cclass) (s : str) (k : str -> option A) : option A :=
  match k s with
  | Some a => Some a
  | None =>
      match s with
      | c :: s' => if in_class cl c then lazy cl s' k else None
      | [] => None
      end
  end.

(** The backtracking matcher: [rmatch r s g k] matches [r] at the start of
    [s] with captures [g] and hands the rest of the text and the captures to
    [k], the rest of the pattern; the alternatives of [r] are tried in the
    order of [re] until [k] succeeds. *)
Fixpoint rmatch (r : regex) (s : str) (g : groups)
    (k : str -> groups -> option A) : option A :=
  match r with
  | Lit l => if startswith l s then k (skipn (length l) s) g else None
  | Seq r1 r2 => rmatch r1 s g (fun s' g' => rmatch r2 s' g' k)
  | Star cl => greedy cl s (fun s' => k s' g)
  | Plus cl =>
      match s with
      | c :: s' => if in_class cl c then greedy cl s' (fun s'' => k s'' g) else None
      | [] => None
      end
  | LazyStar cl => lazy cl s (fun s' => k s' g)
  | Opt r' =>
      match rmatch r' s g k with
      | Some a => Some a
      | None => k s g
      end
  | Group n r' => rmatch r' s g (fun s' g' => k s' (set_group n (consumed s s') g'))
  end.

End Matcher.

(** [pattern.match(s)]: a match anchored at the start of [s], as its
    captures and the text left after it. *)
Definition match_at (r : regex) (s : str) : option (groups * str) :=
  rmatch r s [] (fun s' g => Some (g, s')).

(** [pattern.search(s)]: the first position, left to right, where a match
    starts; returned as the text before the match, the captures, the matched
    text and the text after it. *)
Fixpoint search (r : regex) (s : str) : option (str * groups * str * str) :=
  match match_at r s with
  | Some (g, rest) => Some ([], g, consumed s rest, rest)
  | None =>
      match s with
      | [] => None
      | c :: s' =>
          match search r s' with
          | Some (pre, g, m, rest) => Some (c :: pre, g, m, rest)
          | None => None
          end
      end
  end.

(** The loop of [re.sub(r, repl, s)]: search from the end of the last match,
    copy the text in between, append the replacement, and copy what is left
    when no further match is found.  Every turn moves on by one character at
    least, which bounds the loop by the length of the text.  (A match of the
    empty string is followed by a copy of the next character; the pattern of
    this script never matches the empty string.) *)
Fixpoint sub_loop (n : nat) (r : regex) (repl : groups -> str) (s : str) : str :=
  match n with
  | 0 => s
  | S n' =>
      match search r s with
      | None => s
      | Some (pre, g, m, rest) =>
          pre ++ repl g ++
          match m, rest with
          | [], c :: rest' => c :: sub_loop n' r repl rest'
          | [], [] => []
          | _ :: _, _ => sub_loop n' r repl rest
          end
      end
  end.

Definition re_sub (r : regex) (repl : groups -> str) (s : str) : str :=
  sub_loop (S (length s)) r repl s.

(** ** The script *)

Infix ";;" := Seq (at level 61, right associativity).

(** The declaration of a handler, first line of [pattern]. *)
Definition decl_params : str :=
  text " = async (req: RequestWithTraceContext, res: Response) => {".

Definition decl_re : regex :=
  Lit (text "export const ") ;; Plus Word ;; Lit decl_params.

(** The optional statement that extracts the trace context, second line of
    [pattern]. *)
Definition trace_stmt : str := text "const { traceId, spanId } = req;".

Definition trace_re : regex := Opt (Lit trace_stmt ;; Star Space).

(** The opening of the catch block and the end of the handler, third line of
    [pattern] after the body. *)
Definition catch_re : regex :=
  Lit (text "} catch (error") ;;
  Opt (Lit (text ":") ;; Star Space ;; Lit (text "any")) ;;
  Lit (text ") {").

Definition close_re : regex :=
  Lit (text "}") ;; Star Space ;; Lit (text "};").

Definition tail_re : regex := catch_re ;; LazyStar Any ;; close_re.

Definition pattern : regex :=
  Group 1 decl_re ;; Star Space ;;
  Group 2 trace_re ;;
  Lit (text "try {") ;; Group 3 (LazyStar Any) ;;
  tail_re.

(** [match.group(n)] of a match of [pattern]; its three groups take part in
    every match. *)
Definition group_text (g : groups) (n : nat) : str :=
  match group g n with
  | Some v => v
  | None => []
  end.

(** The body of [replace_func], from the captured body to the cleaned one:
    the lines are visited in order and appended to [cleaned_lines], without
    their first four characters when these are four spaces. *)
Definition indent : str := text "    ".

Definition clean_line (line : str) : str :=
  if startswith indent line then skipn 4 line else line.

Definition cleaned_lines (body_lines : list str) : list str :=
  fold_left (fun cleaned line => cleaned ++ [clean_line line]) body_lines [].

Definition clean_body (body : str) : str :=
  rstrip (join [nl] (cleaned_lines (split nl body))).

(** The declaration wrapped with asyncHandler. *)
Definition wrap_decl (func_decl : str) : str :=
  replace (text " = async (") (text " = asyncHandler(async (")
    (replace (text "export const") (text "export const") func_decl).

Definition replace_func (m : groups) : str :=
  let func_decl := group_text m 1 in
  let trace_extract := group_text m 2 in
  let body := group_text m 3 in
  let new_func := wrap_decl func_decl in
  let new_func := new_func ++ [nl] in
  let new_func :=
    match trace_extract with
    | [] => new_func
    | _ :: _ => new_func ++ trace_extract
    end in
  let new_func := new_func ++ clean_body body in
  new_func ++ [nl] ++ text "});".

Definition refactor_controller (content : str) : str :=
  re_sub pattern replace_func content.

(** ** The command line *)

(** What a run does to the outside, in order: a line printed on standard
    output, a file read, the call of [refactor_controller], a file written. *)
Inductive event : Type :=
| Printed (line : str)
| FileRead (path : str)
| Refactored (content : str)
| FileWritten (path content : str).

(** How a run ends: [sys.exit(code)] or the end of the script (code 0), or
    the uncaught [OSError] of an [open] that fails. *)
Inductive status : Type :=
| Exit (code : nat)
| Uncaught_OSError.

(** The files, by path, as the text that reading them yields; a path
    without file cannot be opened for reading.  The model stops there: a
    file that cannot be decoded, an [open] for writing or a write that
    fails, the newline translation of [open], and two paths that name one
    file are outside it, so only what a run does before it opens a file is
    stated of [main] below. *)
Definition filesystem : Type := str -> option str.

Definition write_file (fs : filesystem) (path content : str) : filesystem :=
  fun p => if list_eq_dec N.eq_dec p path then Some content else fs p.

Definition usage : str := text "Usage: python refactor_controllers.py <file_path>".

(** The script run with [sys.argv = argv] on the files [fs]: the files after
    the run, its events and its status. *)
Definition main (argv : list str) (fs : filesystem)
  : filesystem * list event * status :=
  let file_path :=
    match argv with
    | _ :: p :: _ => Some p       (* len(sys.argv) > 1 *)
    | _ => None
    end in
  match file_path with
  | None | Some [] =>             (* not file_path *)
      (fs, [Printed usage], Exit 1)
  | Some path =>
      match fs path with
      | None => (fs, [], Uncaught_OSError)
      | Some content =>
          let refactored := refactor_controller content in
          (write_file fs path refactored,
           [FileRead path; Refactored content; FileWritten path refactored;
            Printed (text "Refactored " ++ path)],
           Exit 0)
      end
  end.

(** ** The matches of a document *)

(** One match of a pass over the document: where it starts and ends, and
    its captures. *)
Record match_record : Type := Match {
  m_start : nat;
  m_end : nat;
  m_groups : groups
}.

(** [pattern.finditer(s)]: the matches that the loop of [re.sub] finds, in
    the order it finds them; [off] is the offset of [s] in the document. *)
Fixpoint finditer_loop (n : nat) (r : regex) (off : nat) (s : str)
  : list match_record :=
  match n with
  | 0 => []
  | S n' =>
      match search r s with
      | None => []
      | Some (pre, g, m, rest) =>
          let b := off + length pre in
          let e := b + length m in
          Match b e g ::
          match m, rest with
          | [], _ :: rest' => finditer_loop n' r (S e) rest'
          | [], [] => []
          | _ :: _, _ => finditer_loop n' r e rest
          end
      end
  end.

Definition finditer (r : regex) (s : str) : list match_record :=
  finditer_loop (S (length s)) r 0 s.

(** [s[i:j]] *)
Definition slice (s : str) (i j : nat) : str := firstn (j - i) (skipn i s).

(** The emitter of the specification: from position [pos] of the document,
    the text up to each match is copied, the match is replaced, and the text
    after the last match is copied. *)
Fixpoint emit (repl : groups -> str) (doc : str) (pos : nat)
    (ms : list match_record) : str :=
  match ms with
  | [] => skipn pos doc
  | m :: ms' =>
      slice doc pos (m_start m) ++ repl (m_groups m) ++ emit repl doc (m_end m) ms'
  end.

(** Match spans in document order from [pos] on: each is non-empty, lies
    inside the document of length [len], and starts no earlier than the one
    before it ends. *)
Fixpoint spans_from (pos len : nat) (ms : list match_record) : Prop :=
  match ms with
  | [] => True
  | m :: ms' =>
      pos <= m_start m /\ m_start m < m_end m /\ m_end m <= len /\
      spans_from (m_end m) len ms'
  end.

(** The span of a match does not meet the region [[a, b)] of the document. *)
Definition clear_of (a b : nat) (m : match_record) : Prop :=
  m_end m <= a \/ b <= m_start m.

(** A text without the word characters it starts with. *)
Fixpoint skip_word (s : str) : str :=
  match s with
  | c :: s' => if is_word c then skip_word s' else s
  | [] => []
  end.

(** A text starts with a declaration of the target shape:
    [export const], a name, and the parameters as [pattern] spells them. *)
Definition is_decl_at (t : str) : bool :=
  startswith (text "export const ") t &&
  match skipn 13 t with
  | c :: t' => is_word c && startswith decl_params (skip_word t')
  | [] => false
  end.

(** ** The scenario of the specification *)

(** A text given line by line. *)
Definition lines (ls : list string) : str := join [nl] (map text ls).

Definition scenario_input : str := lines
  [ "export const getUser = async (req: RequestWithTraceContext, res: Response) => {";
    "  const { traceId, spanId } = req;";
    "  try {";
    "    const user = await fetchUser(req.params.id);";
    "    res.json(user);";
    "  } catch (error: any) {";
    "    res.status(500).json({ error: error.message });";
    "  }";
    "};" ]%string.

(** The output that the specification expects. *)
Definition scenario_expected : str := lines
  [ "export const getUser = asyncHandler(async (req: RequestWithTraceContext, res: Response) => {";
    "const { traceId, spanId } = req;";
    "const user = await fetchUser(req.params.id);";
    "res.json(user);";
    "});" ]%string.

(** The output of the script: the white space that follows the trace
    statement in the input, a newline and two spaces, is captured with it, so
    that a line of two spaces comes before the body. *)
Definition scenario_output : str := lines
  [ "export const getUser = asyncHandler(async (req: RequestWithTraceContext, res: Response) => {";
    "const { traceId, spanId } = req;";
    "  ";
    "const user = await fetchUser(req.params.id);";
    "res.json(user);";
    "});" ]%string.

(** The same two texts with the two columns of margin that the listing of
    the specification has on every line. *)
Definition scenario_input_margin : str := lines
  [ "  export const getUser = async (req: RequestWithTraceContext, res: Response) => {";
    "    const { traceId, spanId } = req;";
    "    try {";
    "      const user = await fetchUser(req.params.id);";
    "      res.json(user);";
    "    } catch (error: any) {";
    "      res.status(500).json({ error: error.message });";
    "    }";
    "  };" ]%string.

Definition scenario_expected_margin : str := lines
  [ "  export const getUser = asyncHandler(async (req: RequestWithTraceContext, res: Response) => {";
    "  const { traceId, spanId } = req;";
    "  const user = await fetchUser(req.params.id);";
    "  res.json(user);";
    "  });" ]%string.

(** ** Example documents *)

(** A handler of the target shape whose body has a try/catch of its own. *)
Definition nested_input : str := lines
  [ "export const nested = async (req: RequestWithTraceContext, res: Response) => {";
    "  try {";
    "    try {";
    "      inner();";
    "    } catch (error) {";
    "      recover();";
    "    }";
    "    outer();";
    "  } catch (error) {";
    "    fail();";
    "  }";
    "};" ]%string.

(** Its captures: the body stops before the inner catch. *)
Definition nested_groups : groups :=
  [ (3, lines [ ""; "    try {"; "      inner();"; "    " ]%string);
    (2, []);
    (1, text "export const nested = async (req: RequestWithTraceContext, res: Response) => {") ].

(** The captures of the scenario input. *)
Definition scenario_groups : groups :=
  [ (3, lines [ ""; "    const user = await fetchUser(req.params.id);";
                "    res.json(user);"; "  " ]%string);
    (2, lines [ "const { traceId, spanId } = req;"; "  " ]%string);
    (1, text "export const getUser = async (req: RequestWithTraceContext, res: Response) => {") ].

(** A handler of the target shape but for the name of its catch parameter,
    and the two lines after it. *)
Definition first_handler : str := lines
  [ "export const first = async (req: RequestWithTraceContext, res: Response) => {";
    "  try {";
    "    await work(req);";
    "  } catch (e) {";
    "    res.status(500).end();";
    "  }";
    "};";
    "";
    "" ]%string.

(** A handler whose first parameter has another type. *)
Definition second_handler : str := lines
  [ "export const second = async (req: Request, res: Response) => {";
    "  try {";
    "    res.json(await load(req));";
    "  } catch (error) {";
    "    res.status(500).end();";
    "  }";
    "};" ]%string.

(** A handler that extracts the two identifiers in the other order: what
    comes after its declaration, and the whole of it. *)
Definition third_after : str := lines
  [ "";
    "  const { spanId, traceId } = req;";
    "  try {";
    "    res.json(await load(req, traceId));";
    "  } catch (error) {";
    "    res.status(500).end();";
    "  }";
    "};" ]%string.

Definition third_handler : str :=
  text "export const third = async (req: RequestWithTraceContext, res: Response) => {"
  ++ third_after.


(** The output of the script on the first handler followed by the third. *)
Definition first_third_output : str := lines
  [ "export const first = asyncHandler(async (req: RequestWithTraceContext, res: Response) => {";
    "";
    "await work(req);";
    "  } catch (e) {";
    "res.status(500).end();";
    "  }";
    "};";
    "";
    "export const third = async (req: RequestWithTraceContext, res: Response) => {";
    "  const { spanId, traceId } = req;";
    "  try {";
    "res.json(await load(req, traceId));";
    "});" ]%string.

(** One handler whose catch block holds an object literal that ends with
    [} };]. *)
Definition early_close_input : str := lines
  [ "export const save = async (req: RequestWithTraceContext, res: Response) => {";
    "  try {";
    "    await store(req.body);";
    "  } catch (error) {";
    "    const info = { code: 500, detail: { message: error.message } };";
    "    res.status(500).json(info);";
    "  }";
    "};" ]%string.

Definition early_close_groups : groups :=
  [ (3, lines [ ""; "    await store(req.body);"; "  " ]%string);
    (2, []);
    (1, text "export const save = async (req: RequestWithTraceContext, res: Response) => {") ].

Definition early_close_rest : str := lines
  [ ""; "    res.status(500).json(info);"; "  }"; "};" ]%string.

(** One handler whose try block declares a handler of its own, with
    [catch (e)], and whose catch block holds the object literal and a
    try/catch of its own. *)
Definition inner_handler_input : str := lines
  [ "export const outer = async (req: RequestWithTraceContext, res: Response) => {";
    "  try {";
    "    export const inner = async (req: RequestWithTraceContext, res: Response) => {";
    "      try {";
    "        await work(req);";
    "      } catch (e) {";
    "        res.status(400).end();";
    "      }";
    "    };";
    "    await inner(req, res);";
    "  } catch (error) {";
    "    const info = { code: 500, detail: { message: error.message } };";
    "    try {";
    "      await report(info);";
    "    } catch (error) {";
    "      res.status(500).json(info);";
    "    }";
    "  }";
    "};" ]%string.

(** What one pass and what two passes make of [inner_handler_input]. *)
Definition inner_handler_once : str := lines
  [ "export const outer = asyncHandler(async (req: RequestWithTraceContext, res: Response) => {";
    "";
    "export const inner = async (req: RequestWithTraceContext, res: Response) => {";
    "  try {";
    "    await work(req);";
    "  } catch (e) {";
    "    res.status(400).end();";
    "  }";
    "};";
    "await inner(req, res);";
    "});";
    "    try {";
    "      await report(info);";
    "    } catch (error) {";
    "      res.status(500).json(info);";
    "    }";
    "  }";
    "};" ]%string.

Definition inner_handler_twice : str := lines
  [ "export const outer = asyncHandler(async (req: RequestWithTraceContext, res: Response) => {";
    "";
    "export const inner = asyncHandler(async (req: RequestWithTraceContext, res: Response) => {";
    "";
    "await work(req);";
    "  } catch (e) {";
    "res.status(400).end();";
    "  }";
    "};";
    "await inner(req, res);";
    "});";
    "try {";
    "  await report(info);";
    "});" ]%string.

(** The word characters of ASCII alone, for the examples, whose texts are
    ASCII. *)
Definition ascii_words : char -> bool := fun _ => false.

(** ** The handlers the pattern describes *)

Definition all_in (cl : cclass) (w : str) : Prop :=
  forallb (in_class cl) w = true.

(** The parts of one handler of the target shape, in the order of the text
    (the MatchRecord of the specification). *)
Record handler : Type := Handler {
  h_name : str;    (* the name of the constant *)
  h_gap : str;     (* white space after the declaration *)
  h_trace : str;   (* the trace statement and the white space after it, or nothing *)
  h_body : str;    (* the text of the try block *)
  h_ann : str;     (* the type annotation of the catch parameter, or nothing *)
  h_catch : str;   (* the text of the catch block, up to its closing brace *)
  h_end : str      (* white space between the two closing braces *)
}.

Definition handler_decl (h : handler) : str :=
  text "export const " ++ h_name h ++ decl_params.

(** The opening of a catch block as [pattern] spells it. *)
Definition catch_open (ann : str) : str :=
  text "} catch (error" ++ ann ++ text ") {".

Definition handler_close (h : handler) : str :=
  h_catch h ++ text "}" ++ h_end h ++ text "};".

Definition handler_text (h : handler) : str :=
  handler_decl h ++ h_gap h ++ h_trace h ++ text "try {" ++
  h_body h ++ catch_open (h_ann h) ++ handler_close h.

Definition trace_ok (t : str) : Prop :=
  t = [] \/ exists w, t = trace_stmt ++ w /\ all_in Space w.

Definition ann_ok (a : str) : Prop :=
  a = [] \/ exists w, a = text ":" ++ w ++ text "any" /\ all_in Space w.

Definition handler_ok (h : handler) : Prop :=
  h_name h <> [] /\ all_in Word (h_name h) /\ all_in Space (h_gap h) /\
  trace_ok (h_trace h) /\ ann_ok (h_ann h) /\ all_in Space (h_end h).

(** The captures of a match of the handler. *)
Definition handler_groups (h : handler) : groups :=
  [(3, h_body h); (2, h_trace h); (1, handler_decl h)].

(** A text opens a catch block when it starts with [} catch (error) {], the
    parameter annotated with [: any] or not. *)
Definition opens_catch (t : str) : Prop :=
  exists ann rest, ann_ok ann /\ t = catch_open ann ++ rest.

(** A text holds the opening of a catch block somewhere. *)
Definition has_catch (s : str) : Prop :=
  exists a t, s = a ++ t /\ opens_catch t.

(** [dedent b s t]: the text [t] is the text [s] without the indentation,
    four spaces, of some of its lines; [b] tells that [s] starts a line. *)
Inductive dedent : bool -> str -> str -> Prop :=
| dedent_nil b : dedent b [] []
| dedent_indent s t : dedent false s t -> dedent true (indent ++ s) t
| dedent_char b c s t : dedent (N.eqb c nl) s t -> dedent b (c :: s) (c :: t).

(** The closing brace that starts [catch_open] is its only one. *)
Definition brace : char := 125%N.

(** [catch_open] after its closing brace. *)
Definition catch_open_rest (ann : str) : str :=
  text " catch (error" ++ ann ++ text ") {".

(** The parameters of the arrow function, as the declaration spells them
    after [ = async (]. *)
Definition params : str := text "req: RequestWithTraceContext, res: Response) => {".

(** The declaration of the handler called [name]. *)
Definition declaration (name : str) : str :=
  text "export const " ++ name ++ decl_params.

(** [h] occurs in [s]. *)
Fixpoint contains (h s : str) : bool :=
  startswith h s ||
  match s with
  | [] => false
  | _ :: s' => contains h s'
  end.

(** [clear_of], computed. *)
Definition clear_ofb (a b : nat) (m : match_record) : bool :=
  (m_end m <=? a) || (b <=? m_start m).

(** The number of space characters a line begins with. *)
Fixpoint leading_spaces (line : str) : nat :=
  match line with
  | c :: line' => if N.eqb c space then S (leading_spaces line') else 0
  | [] => 0
  end.

(** A text closes a handler when it starts with [}], white space or none,
    and [};], as the end of [pattern] spells it. *)
Definition closes (t : str) : Prop :=
  exists e r, all_in Space e /\ t = text "}" ++ e ++ text "};" ++ r.

(** The expression matches somewhere in the text. *)
Fixpoint occurs (r : regex) (s : str) : bool :=
  match match_at r s with Some _ => true | None => false end ||
  match s with
  | [] => false
  | _ :: s' => occurs r s'
  end.

(** No position of [pre], in the text [pre ++ rest], starts a declaration
    of the target shape. *)
Fixpoint no_decl_in (pre rest : str) : bool :=
  match pre with
  | [] => true
  | _ :: pre' => negb (is_decl_at (pre ++ rest)) && no_decl_in pre' rest
  end.

(** A declaration of the target shape starts somewhere in the text. *)
Definition has_decl (s : str) : Prop :=
  exists a t, s = a ++ t /\ is_decl_at t = true.

(** [p] may start where [s] starts, whatever follows [s]: it is a prefix of
    [s], or [s] is a prefix of it. *)
Fixpoint may_start (p s : str) : bool :=
  match p, s with
  | [], _ => true
  | _ :: _, [] => true
  | a :: p', b :: s' => N.eqb a b && may_start p' s'
  end.

(** At no position of the literal [l] may [export const ] start, whatever
    follows [l]. *)
Fixpoint clear_lit (l : str) : bool :=
  match l with
  | [] => true
  | _ :: l' => negb (may_start (text "export const ") l) && clear_lit l'
  end.

(** A text starts with a character that is not white space. *)
Definition starts_nonspace (t : str) : Prop :=
  match t with
  | c :: _ => is_space c = false
  | [] => False
  end.

(** The scenario input as a handler, part by part. *)
Definition scenario_handler : handler :=
  {| h_name := text "getUser";
     h_gap := lines [ ""; "  " ]%string;
     h_trace := lines [ "const { traceId, spanId } = req;"; "  " ]%string;
     h_body := lines [ ""; "    const user = await fetchUser(req.params.id);";
                       "    res.json(user);"; "  " ]%string;
     h_ann := text ": any";
     h_catch := lines [ ""; "    res.status(500).json({ error: error.message });";
                        "  " ]%string;
     h_end := [nl] |}.

(** The parts of [inner_handler_input] as a handler of the target shape. *)
Definition inner_handler : handler :=
  {| h_name := text "outer";
     h_gap := lines [ ""; "  " ]%string;
     h_trace := [];
     h_body := lines
       [ "";
         "    export const inner = async (req: RequestWithTraceContext, res: Response) => {";
         "      try {";
         "        await work(req);";
         "      } catch (e) {";
         "        res.status(400).end();";
         "      }";
         "    };";
         "    await inner(req, res);";
         "  " ]%string;
     h_ann := [];
     h_catch := lines
       [ "";
         "    const info = { code: 500, detail: { message: error.message } };";
         "    try {";
         "      await report(info);";
         "    } catch (error) {";
         "      res.status(500).json(info);";
         "    }";
         "  " ]%string;
     h_end := [nl] |}.

(** A body indented with tabs. *)
Definition tab : char := 9%N.

Definition tab_body : str :=
  [nl; tab; tab] ++ text "const user = await load();"
  ++ [nl; tab; tab] ++ text "res.json(user);" ++ [nl; tab].

(** ** What the matcher accepts *)

(** [parses r w g g']: the expression [r] matches exactly the text [w] and
    turns the captures [g] into [g']. *)
Inductive parses : regex -> str -> groups -> groups -> Prop :=
| parses_Lit l g : parses (Lit l) l g g
| parses_Seq r1 r2 w1 w2 g g1 g2 :
    parses r1 w1 g g1 -> parses r2 w2 g1 g2 ->
    parses (Seq r1 r2) (w1 ++ w2) g g2
| parses_Star cl w g :
    forallb (in_class cl) w = true -> parses (Star cl) w g g
| parses_Plus cl w g :
    w <> [] -> forallb (in_class cl) w = true -> parses (Plus cl) w g g
| parses_LazyStar cl w g :
    forallb (in_class cl) w = true -> parses (LazyStar cl) w g g
| parses_Opt_some r w g g' : parses r w g g' -> parses (Opt r) w g g'
| parses_Opt_none r g : parses (Opt r) [] g g
| parses_Group n r w g g' :
    parses r w g g' -> parses (Group n r) w g (set_group n w g').

(** ** Text lemmas *)

Lemma startswith_app (p r : str) : startswith p (p ++ r) = true.
Proof.
  induction p as [|a p IH]; simpl; [reflexivity|].
  now rewrite N.eqb_refl, IH.
Qed.

Lemma startswith_true (p s : str) :
  startswith p s = true -> s = p ++ skipn (length p) s.
Proof.
  revert s; induction p as [|a p IH]; intros [|b s] H; simpl in *;
    try reflexivity; try discriminate.
  apply andb_true_iff in H as [Hab H].
  apply N.eqb_eq in Hab; subst b.
  now rewrite <- (IH s H).
Qed.

Lemma startswith_iff (p s : str) :
  startswith p s = true <-> exists r, s = p ++ r.
Proof.
  split.
  - intros H; eexists; apply (startswith_true _ _ H).
  - intros [r ->]; apply startswith_app.
Qed.

Lemma skipn_length_app (p r : str) : skipn (length p) (p ++ r) = r.
Proof. induction p; simpl; auto. Qed.

Lemma consumed_app (w s : str) : consumed (w ++ s) s = w.
Proof.
  unfold consumed. rewrite length_app.
  replace (length w + length s - length s) with (length w) by lia.
  induction w; simpl; [reflexivity | now f_equal].
Qed.

Lemma consumed_self (s : str) : consumed s s = [].
Proof. apply (consumed_app [] s). Qed.

(** ** Soundness and completeness of the matcher *)

Section MatcherFacts.

Variable A : Type.
Implicit Types (k : str -> option A) (s w : str).

(** A repetition that succeeds stopped after some characters of the class,
    where the rest of the pattern succeeded. *)
Lemma greedy_sound cl s k a :
  greedy cl s k = Some a ->
  exists w s', s = w ++ s' /\ forallb (in_class cl) w = true /\ k s' = Some a.
Proof.
  revert a; induction s as [|c s IH]; intros a H; simpl in H.
  - exists [], []; auto.
  - destruct (in_class cl c) eqn:Hc.
    + destruct (greedy cl s k) as [b|] eqn:Hg.
      * inversion H; subst b.
        destruct (IH a eq_refl) as (w & s' & -> & Hw & Hk).
        exists (c :: w), s'; simpl; rewrite Hc; auto.
      * exists [], (c :: s); auto.
    + exists [], (c :: s); auto.
Qed.

Lemma greedy_fallback cl s k : k s <> None -> greedy cl s k <> None.
Proof.
  destruct s as [|c s]; simpl; auto.
  destruct (in_class cl c); auto.
  destruct (greedy cl s k); auto; discriminate.
Qed.

Lemma greedy_complete cl w s k :
  forallb (in_class cl) w = true -> k s <> None -> greedy cl (w ++ s) k <> None.
Proof.
  induction w as [|c w IH]; simpl; intros Hw Hk.
  - now apply greedy_fallback.
  - apply andb_true_iff in Hw as [Hc Hw]. rewrite Hc.
    specialize (IH Hw Hk).
    destruct (greedy cl (w ++ s) k); [discriminate | contradiction].
Qed.

(** A non-greedy repetition stops at the first point where the rest of the
    pattern succeeds: it failed at every earlier one. *)
Lemma lazy_sound cl s k a :
  lazy cl s k = Some a ->
  exists w s', s = w ++ s' /\ forallb (in_class cl) w = true /\ k s' = Some a /\
    forall w1 w2, w = w1 ++ w2 -> w2 <> [] -> k (w2 ++ s') = None.
Proof.
  assert (Hnil : forall s' (w1 w2 : str),
             [] = w1 ++ w2 -> w2 <> [] -> k (w2 ++ s') = None).
  { intros s' w1 w2 E; symmetry in E; apply app_eq_nil in E as [_ ->]; congruence. }
  revert a; induction s as [|c s IH]; intros a H; simpl in H.
  - destruct (k []) as [b|] eqn:Hk; [|discriminate].
    inversion H; subst b.
    exists [], []; split; [|split; [|split]]; auto; apply Hnil.
  - destruct (k (c :: s)) as [b|] eqn:Hk.
    + inversion H; subst b.
      exists [], (c :: s); split; [|split; [|split]]; auto; apply Hnil.
    + destruct (in_class cl c) eqn:Hc; [|discriminate].
      destruct (IH a H) as (w & s' & -> & Hw & Hks & Hmin).
      exists (c :: w), s'; simpl; rewrite Hc; split; [|split; [|split]]; auto.
      intros [|x w1] w2 E Hne; simpl in E.
      * subst w2; exact Hk.
      * inversion E; subst; eauto.
Qed.

Lemma lazy_complete cl w s k :
  forallb (in_class cl) w = true -> k s <> None -> lazy cl (w ++ s) k <> None.
Proof.
  induction w as [|c w IH]; simpl; intros Hw Hk.
  - destruct s; simpl; destruct (k _); congruence.
  - apply andb_true_iff in Hw as [Hc Hw].
    destruct (k (c :: w ++ s)); [discriminate|].
    rewrite Hc; auto.
Qed.

(** Soundness: a successful run of the matcher went through a text that the
    expression accepts, and the rest of the pattern succeeded after it. *)
Theorem rmatch_sound r :
  forall s g (k : str -> groups -> option A) a,
    rmatch r s g k = Some a ->
    exists w s' g', s = w ++ s' /\ parses r w g g' /\ k s' g' = Some a.
Proof.
  induction r as [l|r1 IH1 r2 IH2|cl|cl|cl|r IH|n r IH]; intros s g k a H; simpl in H.
  - destruct (startswith l s) eqn:Hl; [|discriminate].
    exists l, (skipn (length l) s), g; split; [|split]; auto using startswith_true.
    constructor.
  - apply IH1 in H as (w1 & s1 & g1 & -> & P1 & H).
    apply IH2 in H as (w2 & s2 & g2 & -> & P2 & H).
    exists (w1 ++ w2), s2, g2; rewrite app_assoc; repeat split; auto.
    econstructor; eauto.
  - apply greedy_sound in H as (w & s' & -> & Hw & H).
    exists w, s', g; repeat split; auto. now constructor.
  - destruct s as [|c s]; [discriminate|].
    destruct (in_class cl c) eqn:Hc; [|discriminate].
    apply greedy_sound in H as (w & s' & -> & Hw & H).
    exists (c :: w), s', g; repeat split; auto.
    constructor; [discriminate | simpl; now rewrite Hc].
  - apply lazy_sound in H as (w & s' & -> & Hw & H & _).
    exists w, s', g; repeat split; auto. now constructor.
  - destruct (rmatch r s g k) as [b|] eqn:Hr.
    + inversion H; subst b.
      apply IH in Hr as (w & s' & g' & -> & P & Hk).
      exists w, s', g'; repeat split; auto. now constructor.
    + exists [], s, g; split; [|split]; auto. apply parses_Opt_none.
  - apply IH in H as (w & s' & g' & -> & P & H).
    rewrite consumed_app in H.
    exists w, s', (set_group n w g'); repeat split; auto. now constructor.
Qed.

(** Completeness: when the expression accepts a prefix of the text after
    which the rest of the pattern succeeds, the matcher does not fail. *)
Theorem rmatch_complete r w g g' :
  parses r w g g' ->
  forall s (k : str -> groups -> option A),
    k s g' <> None -> rmatch r (w ++ s) g k <> None.
Proof.
  induction 1 as [l g|r1 r2 w1 w2 g g1 g2 _ IH1 _ IH2|cl w g Hw|cl w g Hne Hw
                 |cl w g Hw|r w g g' _ IH|r g|n r w g g' _ IH]; intros s k Hk; simpl.
  - now rewrite startswith_app, skipn_length_app.
  - rewrite <- app_assoc. apply IH1. now apply IH2.
  - now apply greedy_complete.
  - destruct w as [|c w]; [congruence|]. simpl in *.
    apply andb_true_iff in Hw as [Hc Hw]. rewrite Hc.
    now apply greedy_complete.
  - now apply lazy_complete.
  - specialize (IH s k Hk). destruct (rmatch r (w ++ s) g k); congruence.
  - destruct (rmatch r s g k); congruence.
  - apply IH. now rewrite consumed_app.
Qed.

End MatcherFacts.

Corollary match_at_sound r s g rest :
  match_at r s = Some (g, rest) ->
  exists w, s = w ++ rest /\ parses r w [] g.
Proof.
  unfold match_at; intros H.
  apply rmatch_sound in H as (w & s' & g' & -> & P & H).
  inversion H; subst; eauto.
Qed.

Corollary match_at_complete r w g rest :
  parses r w [] g -> match_at r (w ++ rest) <> None.
Proof.
  intros P; unfold match_at. eapply rmatch_complete; eauto. discriminate.
Qed.

(** ** The matches of [pattern] *)

Ltac inv H := inversion H; subst; clear H.

Tactic Notation "hsimpl" :=
  cbn [h_name h_gap h_trace h_body h_ann h_catch h_end].
Tactic Notation "hsimpl" "in" hyp(H) :=
  cbn [h_name h_gap h_trace h_body h_ann h_catch h_end] in H.

Lemma rmatch_Seq A r1 r2 s g (k : str -> groups -> option A) :
  rmatch (r1 ;; r2) s g k = rmatch r1 s g (fun s' g' => rmatch r2 s' g' k).
Proof. reflexivity. Qed.

Lemma rmatch_Group_LazyStar A n cl s g (k : str -> groups -> option A) :
  rmatch (Group n (LazyStar cl)) s g k =
  lazy cl s (fun s' => k s' (set_group n (consumed s s') g)).
Proof. reflexivity. Qed.

Lemma all_in_Any w : all_in Any w.
Proof. unfold all_in; induction w; simpl; auto. Qed.

Ltac inv_parses :=
  repeat match goal with
         | H : parses (Seq _ _) _ _ _ |- _ => inv H
         | H : parses (Lit _) _ _ _ |- _ => inv H
         | H : parses (Star _) _ _ _ |- _ => inv H
         | H : parses (Plus _) _ _ _ |- _ => inv H
         | H : parses (LazyStar _) _ _ _ |- _ => inv H
         | H : parses (Opt _) _ _ _ |- _ => inv H
         | H : parses (Group _ _) _ _ _ |- _ => inv H
         end.

Lemma parses_decl_re w g g' :
  parses decl_re w g g' ->
  exists name, name <> [] /\ all_in Word name /\
    w = text "export const " ++ name ++ decl_params /\ g' = g.
Proof.
  unfold decl_re; intros H. inv_parses.
  eexists; repeat split; eauto.
Qed.

Lemma parses_trace_re w g g' :
  parses trace_re w g g' -> trace_ok w /\ g' = g.
Proof.
  unfold trace_re; intros H. inv_parses.
  - split; auto. right; eauto.
  - split; auto. now left.
Qed.

Lemma parses_catch_re w g g' :
  parses catch_re w g g' -> exists ann, ann_ok ann /\ w = catch_open ann /\ g' = g.
Proof.
  unfold catch_re; intros H. inv_parses.
  - eexists; split; [right; eauto|]. split; auto.
  - exists []; split; [now left|]. split; auto.
Qed.

Lemma parses_close_re w g g' :
  parses close_re w g g' ->
  exists e, all_in Space e /\ w = text "}" ++ e ++ text "};" /\ g' = g.
Proof.
  unfold close_re; intros H. inv_parses.
  eexists; repeat split; eauto.
Qed.

Lemma parses_tail_re w g g' :
  parses tail_re w g g' ->
  exists ann x e, ann_ok ann /\ all_in Space e /\
    w = catch_open ann ++ x ++ text "}" ++ e ++ text "};" /\ g' = g.
Proof.
  unfold tail_re; intros H.
  inv H. match goal with H : parses (_ ;; _) _ _ _ |- _ => inv H end.
  repeat match goal with
         | H : parses catch_re _ _ _ |- _ => apply parses_catch_re in H as (ann & Hann & -> & ->)
         | H : parses close_re _ _ _ |- _ => apply parses_close_re in H as (e & He & -> & ->)
         | H : parses (LazyStar _) _ _ _ |- _ => inv H
         end.
  do 3 eexists; repeat split; eauto.
Qed.

Lemma tail_re_parses ann x e g :
  ann_ok ann -> all_in Space e ->
  parses tail_re (catch_open ann ++ x ++ text "}" ++ e ++ text "};") g g.
Proof.
  intros Hann He. unfold tail_re.
  apply parses_Seq with (g1 := g); [|apply parses_Seq with (g1 := g)].
  - unfold catch_re, catch_open.
    apply parses_Seq with (g1 := g); [constructor|].
    apply parses_Seq with (g1 := g); [|constructor].
    destruct Hann as [->|(w & -> & Hw)].
    + apply parses_Opt_none.
    + apply parses_Opt_some.
      apply parses_Seq with (g1 := g); [constructor|].
      apply parses_Seq with (g1 := g); constructor; auto.
  - constructor; apply all_in_Any.
  - unfold close_re.
    apply parses_Seq with (g1 := g); [constructor|].
    apply parses_Seq with (g1 := g); constructor; auto.
Qed.

Lemma not_In_forallb (c : char) (l : str) :
  forallb (fun x => negb (N.eqb x c)) l = true -> ~ In c l.
Proof.
  intros H Hin. rewrite forallb_forall in H. specialize (H c Hin).
  now rewrite N.eqb_refl in H.
Qed.

Lemma is_space_not_brace c : is_space c = true -> c <> brace.
Proof. intros H ->. vm_compute in H. discriminate. Qed.

Lemma all_in_Space_no_brace w : all_in Space w -> ~ In brace w.
Proof.
  unfold all_in; intros H Hin. rewrite forallb_forall in H.
  apply (is_space_not_brace (H _ Hin)). reflexivity.
Qed.

Lemma catch_open_cons ann : catch_open ann = brace :: catch_open_rest ann.
Proof. reflexivity. Qed.

Lemma catch_open_rest_no_brace ann : ann_ok ann -> ~ In brace (catch_open_rest ann).
Proof.
  unfold catch_open_rest; intros Hann Hin.
  apply in_app_or in Hin as [Hin|Hin].
  { revert Hin. now apply not_In_forallb. }
  apply in_app_or in Hin as [Hin|Hin].
  2:{ revert Hin. now apply not_In_forallb. }
  destruct Hann as [->|(w & -> & Hw)]; [easy|].
  apply in_app_or in Hin as [Hin|Hin].
  { revert Hin. now apply not_In_forallb. }
  apply in_app_or in Hin as [Hin|Hin].
  - now apply all_in_Space_no_brace in Hin.
  - revert Hin. now apply not_In_forallb.
Qed.

(** A catch opening that starts before another one ends before it. *)
Lemma opens_catch_before w ann tl :
  w <> [] -> opens_catch (w ++ catch_open ann ++ tl) ->
  exists ann' l, ann_ok ann' /\ w = catch_open ann' ++ l.
Proof.
  intros Hw (ann' & r & Hann' & E).
  apply app_eq_app in E as [l [[-> _]|[E1 E2]]]; [eauto|].
  destruct l as [|c l].
  { rewrite app_nil_r in E1. exists ann', []. now rewrite app_nil_r. }
  exfalso. rewrite catch_open_cons in E1, E2. simpl in E2. inv E2.
  destruct w as [|c w]; [congruence|]. simpl in E1. inv E1.
  apply (catch_open_rest_no_brace Hann').
  match goal with H : catch_open_rest _ = _ |- _ => rewrite H end.
  apply in_or_app; right; now left.
Qed.

(** The shape of every match of [pattern], and the point where its body
    stops: the matched text is a handler, the captures are its parts, and no
    proper suffix of the body, followed by the rest of the text, opens a
    catch block. *)
Lemma match_at_pattern_inv s g rest :
  match_at pattern s = Some (g, rest) ->
  exists h, handler_ok h /\ s = handler_text h ++ rest /\ g = handler_groups h /\
    forall w1 w2, h_body h = w1 ++ w2 -> w2 <> [] ->
      ~ opens_catch (w2 ++ catch_open (h_ann h) ++ handler_close h ++ rest).
Proof.
  unfold match_at, pattern; intros H.
  rewrite rmatch_Seq in H. apply rmatch_sound in H as (w1 & s1 & g1 & -> & P1 & H).
  rewrite rmatch_Seq in H. apply rmatch_sound in H as (w2 & s2 & g2 & -> & P2 & H).
  rewrite rmatch_Seq in H. apply rmatch_sound in H as (w3 & s3 & g3 & -> & P3 & H).
  rewrite rmatch_Seq in H. apply rmatch_sound in H as (w4 & s4 & g4 & -> & P4 & H).
  rewrite rmatch_Seq, rmatch_Group_LazyStar in H.
  apply lazy_sound in H as (body & s5 & -> & _ & H & Hmin).
  rewrite consumed_app in H.
  apply rmatch_sound in H as (w6 & s6 & g6 & -> & P6 & H).
  inv H.
  inv P1. inv P2. inv P3. inv P4.
  match goal with H : parses decl_re _ _ _ |- _ =>
    apply parses_decl_re in H as (name & Hne & Hname & -> & ->) end.
  match goal with H : parses trace_re _ _ _ |- _ =>
    apply parses_trace_re in H as (Htr & ->) end.
  apply parses_tail_re in P6 as (ann & x & e & Hann & He & -> & ->).
  exists (Handler name w2 w3 body ann x e).
  split; [|split; [|split]].
  - repeat split; auto.
  - unfold handler_text, handler_decl, handler_close; hsimpl.
    now rewrite <- !app_assoc.
  - reflexivity.
  - hsimpl. intros v1 v2 Hb Hv2 Hopen.
    unfold handler_close in Hopen; hsimpl in Hopen.
    destruct (@opens_catch_before v2 _ _ Hv2 Hopen) as (ann' & l & Hann' & ->).
    pose proof (Hmin v1 _ Hb Hv2) as Hnone.
    assert (E : (catch_open ann' ++ l) ++
                (catch_open ann ++ x ++ text "}" ++ e ++ text "};") ++ rest =
                (catch_open ann' ++ (l ++ catch_open ann ++ x) ++
                 text "}" ++ e ++ text "};") ++ rest)
      by now rewrite <- !app_assoc.
    rewrite E in Hnone. revert Hnone.
    eapply rmatch_complete; [now apply tail_re_parses|discriminate].
Qed.

(** ** The loop of [re.sub] *)

Lemma match_at_split r s g rest :
  match_at r s = Some (g, rest) -> s = consumed s rest ++ rest.
Proof.
  intros H. apply match_at_sound in H as (w & -> & _).
  now rewrite consumed_app.
Qed.

(** [search] returns the leftmost match: the text splits into what comes
    before the match, the match and what comes after, and no match starts
    anywhere before. *)
Lemma search_spec r s pre g m rest :
  search r s = Some (pre, g, m, rest) ->
  s = pre ++ m ++ rest /\
  match_at r (m ++ rest) = Some (g, rest) /\
  forall p1 p2, pre = p1 ++ p2 -> p2 <> [] -> match_at r (p2 ++ m ++ rest) = None.
Proof.
  revert pre; induction s as [|c s IH]; intros pre H; simpl in H.
  - destruct (match_at r []) as [[g0 rest0]|] eqn:Hm; [|discriminate].
    inv H. pose proof (match_at_split _ _ Hm) as E.
    rewrite <- E. repeat split; auto.
    intros p1 p2 Hp; symmetry in Hp; apply app_eq_nil in Hp as [_ ->]; congruence.
  - destruct (match_at r (c :: s)) as [[g0 rest0]|] eqn:Hm.
    + inv H. pose proof (match_at_split _ _ Hm) as E.
      rewrite <- E. repeat split; auto.
      intros p1 p2 Hp; symmetry in Hp; apply app_eq_nil in Hp as [_ ->]; congruence.
    + destruct (search r s) as [[[[pre0 g0] m0] rest0]|] eqn:Hs; [|discriminate].
      inv H. destruct (IH _ eq_refl) as (-> & Hmatch & Hleft).
      repeat split; auto.
      intros [|x p1] p2 Hp Hne; simpl in Hp.
      * subst p2. exact Hm.
      * inv Hp. now apply Hleft with (p1 := p1).
Qed.

Lemma search_None r s :
  search r s = None <-> forall p t, s = p ++ t -> match_at r t = None.
Proof.
  split.
  - induction s as [|c s IH]; simpl; intros H p t E.
    + symmetry in E; apply app_eq_nil in E as [_ ->].
      destruct (match_at r []) as [[? ?]|]; [discriminate|reflexivity].
    + destruct (match_at r (c :: s)) as [[? ?]|] eqn:Hm; [discriminate|].
      destruct (search r s) as [[[[? ?] ?] ?]|] eqn:Hs; [discriminate|].
      destruct p as [|x p]; simpl in E; [now subst t|].
      inv E. now apply (IH eq_refl p).
  - induction s as [|c s IH]; simpl; intros H.
    + now rewrite (H [] [] eq_refl).
    + rewrite (H [] (c :: s) eq_refl), IH; [reflexivity|].
      intros p t ->. now apply (H (c :: p)).
Qed.

Section Loop.

Variables (r : regex) (repl : groups -> str).

(** The expression never matches the empty text. *)
Hypothesis match_nonempty :
  forall s g rest, match_at r s = Some (g, rest) -> consumed s rest <> [].

Lemma search_nonempty s pre g m rest :
  search r s = Some (pre, g, m, rest) -> m <> [].
Proof.
  intros H. apply search_spec in H as (_ & Hm & _).
  apply match_nonempty in Hm. now rewrite consumed_app in Hm.
Qed.

(** The bound of the loop does not matter once it exceeds the length of
    the text. *)
Lemma sub_loop_bound n m s :
  length s < n -> length s < m -> sub_loop n r repl s = sub_loop m r repl s.
Proof.
  revert m s; induction n as [|n IH]; intros [|m] s Hn Hm; try lia. simpl.
  destruct (search r s) as [[[[pre g] mt] rest]|] eqn:Hs; [|reflexivity].
  pose proof (search_nonempty _ Hs) as Hne.
  apply search_spec in Hs as (-> & _ & _).
  destruct mt as [|c mt]; [congruence|].
  rewrite !length_app in Hn, Hm; simpl in Hn, Hm.
  do 2 f_equal. apply IH; lia.
Qed.

(** The loop does what one turn of it says. *)
Lemma sub_loop_S n s :
  sub_loop (S n) r repl s =
  match search r s with
  | None => s
  | Some (pre, g, m, rest) => pre ++ repl g ++ sub_loop n r repl rest
  end.
Proof.
  simpl. destruct (search r s) as [[[[pre g] m] rest]|] eqn:Hs; [|reflexivity].
  pose proof (search_nonempty _ Hs) as Hne.
  destruct m as [|c m]; [congruence|reflexivity].
Qed.

Lemma sub_loop_step n s :
  length s < n ->
  sub_loop n r repl s =
  match search r s with
  | None => s
  | Some (pre, g, m, rest) => pre ++ repl g ++ sub_loop (S (length rest)) r repl rest
  end.
Proof.
  destruct n as [|n]; intros Hn; [lia|]. rewrite sub_loop_S.
  destruct (search r s) as [[[[pre g] m] rest]|] eqn:Hs; [|reflexivity].
  pose proof (search_nonempty _ Hs) as Hne.
  apply search_spec in Hs as (-> & _ & _).
  destruct m as [|c m]; [congruence|].
  rewrite !length_app in Hn; simpl in Hn.
  do 2 f_equal. apply sub_loop_bound; lia.
Qed.

Lemma re_sub_step s :
  re_sub r repl s =
  match search r s with
  | None => s
  | Some (pre, g, m, rest) => pre ++ repl g ++ re_sub r repl rest
  end.
Proof. unfold re_sub. now rewrite sub_loop_step by lia. Qed.

Lemma skipn_off_app (doc : str) off pre tl :
  skipn off doc = pre ++ tl -> skipn (off + length pre) doc = tl.
Proof.
  intros E. rewrite Nat.add_comm, <- skipn_skipn, E.
  apply skipn_length_app.
Qed.

Lemma slice_off_app (doc : str) off pre tl :
  skipn off doc = pre ++ tl -> slice doc off (off + length pre) = pre.
Proof.
  intros E. unfold slice. rewrite E.
  replace (off + length pre - off) with (length pre) by lia.
  rewrite firstn_app, Nat.sub_diag, firstn_all. simpl. apply app_nil_r.
Qed.

(** The loop is the emitter run on the matches it finds. *)
Lemma sub_loop_emit doc n s off :
  length s < n -> skipn off doc = s ->
  sub_loop n r repl s = emit repl doc off (finditer_loop n r off s).
Proof.
  revert s off; induction n as [|n IH]; intros s off Hn Hoff; [lia|]. simpl.
  destruct (search r s) as [[[[pre g] m] rest]|] eqn:Hs; [|now simpl].
  pose proof (search_nonempty _ Hs) as Hne.
  apply search_spec in Hs as (E & _ & _).
  destruct m as [|c m]; [congruence|].
  cbn [emit m_start m_end m_groups]. rewrite E in Hoff, Hn. clear E.
  erewrite slice_off_app by exact Hoff. do 2 f_equal.
  apply IH.
  - rewrite !length_app in Hn. simpl in Hn. lia.
  - apply skipn_off_app in Hoff. now apply skipn_off_app in Hoff.
Qed.

(** The matches come in document order and do not overlap. *)
Lemma finditer_loop_spans n s off :
  spans_from off (off + length s) (finditer_loop n r off s).
Proof.
  revert s off; induction n as [|n IH]; intros s off; simpl; [exact I|].
  destruct (search r s) as [[[[pre g] m] rest]|] eqn:Hs; [|exact I].
  pose proof (search_nonempty _ Hs) as Hne.
  apply search_spec in Hs as (-> & _ & _).
  destruct m as [|c m]; [congruence|].
  cbn [spans_from m_start m_end]. rewrite !length_app. simpl.
  repeat split; try lia.
  replace (off + (length pre + S (length m + length rest)))
    with (off + length pre + S (length m) + length rest) by lia.
  apply IH.
Qed.

(** Each of them is a match of the expression at its place in the document,
    the leftmost one after the match before it. *)
Lemma finditer_loop_matches doc n s off :
  skipn off doc = s ->
  Forall (fun m => match_at r (skipn (m_start m) doc)
                   = Some (m_groups m, skipn (m_end m) doc))
         (finditer_loop n r off s).
Proof.
  revert s off; induction n as [|n IH]; intros s off Hoff; simpl; [constructor|].
  destruct (search r s) as [[[[pre g] m] rest]|] eqn:Hs; [|constructor].
  pose proof (search_nonempty _ Hs) as Hne.
  apply search_spec in Hs as (E & Hm & _).
  destruct m as [|c m]; [congruence|]. rewrite E in Hoff. clear E.
  pose proof Hoff as H1. apply skipn_off_app in H1.
  pose proof H1 as H2. apply skipn_off_app in H2.
  constructor.
  - cbn [m_start m_end m_groups]. now rewrite H1, H2.
  - now apply IH.
Qed.

End Loop.

(** ** The passes of [refactor_controller] *)

Lemma handler_text_nonempty h : handler_text h <> [].
Proof. unfold handler_text, handler_decl. discriminate. Qed.

Lemma pattern_nonempty s g rest :
  match_at pattern s = Some (g, rest) -> consumed s rest <> [].
Proof.
  intros H. apply match_at_pattern_inv in H as (h & _ & -> & _).
  rewrite consumed_app. apply handler_text_nonempty.
Qed.

(** [refactor_controller] does what one turn of the loop of [re.sub] says. *)
Lemma refactor_controller_step content :
  refactor_controller content =
  match search pattern content with
  | None => content
  | Some (pre, g, _, rest) => pre ++ replace_func g ++ refactor_controller rest
  end.
Proof.
  unfold refactor_controller. rewrite re_sub_step by apply pattern_nonempty.
  now destruct (search pattern content) as [[[[? ?] ?] ?]|].
Qed.

(** No match is found exactly when no position of the document starts one. *)
Lemma finditer_nil r doc :
  finditer r doc = [] <-> forall p t, doc = p ++ t -> match_at r t = None.
Proof.
  rewrite <- search_None. unfold finditer; simpl.
  destruct (search r doc) as [[[[? ?] ?] ?]|]; split; congruence.
Qed.

(** C4: a document in which the pattern has no match is returned as it is,
    character for character. *)
Theorem no_match_unchanged doc :
  finditer pattern doc = [] -> refactor_controller doc = doc.
Proof.
  unfold finditer, refactor_controller, re_sub; simpl.
  destruct (search pattern doc) as [[[[pre g] m] rest]|]; [discriminate|reflexivity].
Qed.

(** C6: the matches of a document come in document order and do not
    overlap, each is a match of the pattern where it stands, and the output
    is the document with each match span replaced: the text before the first
    match, between two matches and after the last one is copied as it is, in
    its order. *)
Theorem matches_spliced doc :
  spans_from 0 (length doc) (finditer pattern doc) /\
  Forall (fun m => match_at pattern (skipn (m_start m) doc)
                   = Some (m_groups m, skipn (m_end m) doc))
         (finditer pattern doc) /\
  refactor_controller doc = emit replace_func doc 0 (finditer pattern doc).
Proof.
  split; [|split].
  - apply (@finditer_loop_spans pattern pattern_nonempty (S (length doc)) doc 0).
  - now apply finditer_loop_matches; [apply pattern_nonempty|].
  - unfold refactor_controller, re_sub, finditer.
    apply sub_loop_emit; [apply pattern_nonempty|lia|reflexivity].
Qed.

(** ** The body rewriter *)

Lemma cleaned_lines_from (acc : list str) body_lines :
  fold_left (fun cleaned line => cleaned ++ [clean_line line]) body_lines acc
  = acc ++ map clean_line body_lines.
Proof.
  revert acc; induction body_lines as [|l ls IH]; intros acc; simpl.
  - now rewrite app_nil_r.
  - now rewrite IH, <- app_assoc.
Qed.

(** The loop over the lines applies [clean_line] to each of them. *)
Lemma cleaned_lines_map body_lines :
  cleaned_lines body_lines = map clean_line body_lines.
Proof. apply (cleaned_lines_from []). Qed.

Lemma split_nonempty sep s : split sep s <> [].
Proof.
  destruct s as [|c s]; simpl; [discriminate|].
  destruct (N.eqb c sep); [discriminate|].
  destruct (split sep s); discriminate.
Qed.

Lemma join_cons_head sep (c : char) l ls :
  join sep ((c :: l) :: ls) = c :: join sep (l :: ls).
Proof. destruct ls; reflexivity. Qed.

(** Splitting at the newlines and joining with newlines gives the text
    back. *)
Lemma join_split s : join [nl] (split nl s) = s.
Proof.
  induction s as [|c s IH]; [reflexivity|]. cbn [split].
  pose proof (split_nonempty nl s) as Hne.
  destruct (split nl s) as [|l ls]; [congruence|].
  destruct (N.eqb c nl) eqn:Hc.
  - apply N.eqb_eq in Hc; subst c.
    change (join [nl] ([] :: l :: ls)) with (nl :: join [nl] (l :: ls)).
    now rewrite IH.
  - now rewrite join_cons_head, IH.
Qed.

(** The pieces of a split hold no newline: they are the lines. *)
Lemma split_lines s line : In line (split nl s) -> ~ In nl line.
Proof.
  revert line; induction s as [|c s IH]; simpl; intros line Hin.
  - destruct Hin as [<-|[]]. auto.
  - destruct (N.eqb c nl) eqn:Hc.
    + destruct Hin as [<-|Hin]; auto.
    + pose proof (split_nonempty nl s) as Hne.
      destruct (split nl s) as [|l ls]; [congruence|].
      destruct Hin as [<-|Hin].
      * intros [->|Hl]; [now rewrite N.eqb_refl in Hc|].
        now apply (IH l (or_introl eq_refl)).
      * apply IH. now right.
Qed.

Lemma leading_spaces_repeat n line :
  n <= leading_spaces line <-> startswith (repeat space n) line = true.
Proof.
  revert line; induction n as [|n IH]; intros [|c line];
    cbn [leading_spaces startswith repeat];
    try (split; intros; (lia || congruence || reflexivity)).
  rewrite (N.eqb_sym space c). destruct (N.eqb c space); cbn [andb].
  - rewrite <- IH. lia.
  - split; intros; (lia || congruence).
Qed.

Lemma leading_spaces_indent line :
  4 <= leading_spaces line <-> startswith indent line = true.
Proof. apply (leading_spaces_repeat 4). Qed.

(** One line of the body: four leading spaces are removed, and a line that
    does not start with four spaces is kept as it is. *)
Lemma clean_line_spec line :
  (4 <= leading_spaces line -> line = indent ++ clean_line line) /\
  (leading_spaces line < 4 -> clean_line line = line).
Proof.
  unfold clean_line. pose proof (leading_spaces_indent line) as H.
  destruct (startswith indent line) eqn:Hs.
  - split; intros Hl.
    + apply startswith_true in Hs. exact Hs.
    + assert (4 <= leading_spaces line) by now apply H. lia.
  - split; intros Hl; [|reflexivity].
    apply H in Hl. discriminate.
Qed.

(** What [lstrip] and [rstrip] remove is white space, and it is all of it. *)
Lemma lstrip_spec s :
  exists w, s = w ++ lstrip s /\ forallb is_space w = true /\
    (lstrip s = [] \/ exists c s', lstrip s = c :: s' /\ is_space c = false).
Proof.
  induction s as [|c s (w & E & Hw & Hend)]; simpl.
  - exists []; auto.
  - destruct (is_space c) eqn:Hc.
    + exists (c :: w); simpl. rewrite Hc, <- E. auto.
    + exists []; simpl. split; [reflexivity|]. split; [reflexivity|].
      right; eauto.
Qed.

Lemma forallb_rev (f : char -> bool) l : forallb f (rev l) = forallb f l.
Proof.
  induction l as [|c l IH]; simpl; [reflexivity|].
  rewrite forallb_app, IH. simpl. rewrite andb_true_r. apply andb_comm.
Qed.

Lemma rstrip_spec s :
  exists w, s = rstrip s ++ w /\ forallb is_space w = true /\
    (rstrip s = [] \/ exists t c, rstrip s = t ++ [c] /\ is_space c = false).
Proof.
  unfold rstrip.
  destruct (lstrip_spec (rev s)) as (w & E & Hw & Hend).
  exists (rev w). split; [|split].
  - rewrite <- rev_app_distr, <- E. now rewrite rev_involutive.
  - now rewrite forallb_rev.
  - destruct Hend as [->|(c & s' & -> & Hc)]; [now left|].
    right. exists (rev s'), c. auto.
Qed.


(** ** The declaration rewriter *)

Lemma replace_scan_same n old s : replace_scan n old old s = s.
Proof.
  revert s; induction n as [|n IH]; intros [|c s]; simpl; try reflexivity.
  destruct (startswith old (c :: s)) eqn:H.
  - rewrite IH. symmetry. now apply startswith_true.
  - now rewrite IH.
Qed.

(** Replacing a text by itself changes nothing. *)
Lemma replace_same old s : replace old old s = s.
Proof. apply replace_scan_same. Qed.

Lemma replace_scan_bound n m old new s :
  old <> [] -> length s <= n -> length s <= m ->
  replace_scan n old new s = replace_scan m old new s.
Proof.
  intros Hold. revert m s; induction n as [|n IH]; intros [|m] [|c s] Hn Hm;
    simpl in *; try reflexivity; try lia.
  destruct (startswith old (c :: s)) eqn:H.
  - f_equal. destruct old as [|a old]; [congruence|]. simpl.
    apply IH; rewrite length_skipn; lia.
  - f_equal. apply IH; lia.
Qed.

(** The scan of [replace], one step at a time. *)
Lemma replace_skip old new c s :
  startswith old (c :: s) = false ->
  replace old new (c :: s) = c :: replace old new s.
Proof. unfold replace; simpl. now intros ->. Qed.

Lemma replace_hit old new s :
  old <> [] -> replace old new (old ++ s) = new ++ replace old new s.
Proof.
  intros Hold. unfold replace.
  pose proof (startswith_app old s) as Hst.
  pose proof (skipn_length_app old s) as Hsk.
  assert (Hlen : length (old ++ s) = S (length (old ++ s) - 1)).
  { destruct old; [congruence|simpl; lia]. }
  rewrite Hlen.
  destruct (old ++ s) as [|c t] eqn:E.
  { destruct old; [congruence|discriminate]. }
  cbn [replace_scan]. rewrite Hst, Hsk. f_equal.
  apply replace_scan_bound; [assumption| |lia].
  apply (f_equal (@length _)) in E. rewrite length_app in E.
  destruct old; [congruence|]. simpl in *. lia.
Qed.

(** A word character is none of the ASCII characters outside [\w]. *)
Lemma is_word_not c d :
  (d <? 128)%N = true -> ascii_word d = false -> is_word c = true -> c <> d.
Proof.
  intros Hd Ha Hc ->. unfold is_word in Hc. rewrite Hd in Hc. congruence.
Qed.

Lemma replace_skip_nospace old new w t :
  ~ In space w ->
  replace (space :: old) new (w ++ t) = w ++ replace (space :: old) new t.
Proof.
  induction w as [|c w IH]; simpl; intros Hw; [reflexivity|].
  rewrite replace_skip, IH; auto.
  cbn [startswith]. destruct (N.eqb_spec space c) as [E|E]; [|reflexivity].
  exfalso; auto.
Qed.

Lemma all_in_Word_no_space w : all_in Word w -> ~ In space w.
Proof.
  unfold all_in; intros H Hin. rewrite forallb_forall in H.
  now apply (is_word_not (c := space) (d := space)); auto.
Qed.

Lemma decl_params_split : decl_params = text " = async (" ++ params.
Proof. reflexivity. Qed.

(** The two [replace] calls of [replace_func] on a declaration of the target
    shape: the first changes nothing, the second rewrites the one
    [ = async (] of the declaration. *)
Lemma wrap_decl_spec name :
  name <> [] -> all_in Word name ->
  wrap_decl (text "export const " ++ name ++ decl_params) =
  text "export const " ++ name ++ text " = asyncHandler(async (" ++ params.
Proof.
  intros Hne Hname. unfold wrap_decl. rewrite replace_same.
  destruct name as [|c name]; [congruence|].
  assert (Hc : is_word c = true).
  { unfold all_in in Hname; simpl in Hname. now apply andb_true_iff in Hname. }
  assert (c <> 61%N) as Hc1 by now apply is_word_not.
  apply N.eqb_neq in Hc1. rewrite N.eqb_sym in Hc1.
  change (text "export const " ++ (c :: name) ++ decl_params)
    with (text "export" ++ space :: text "const" ++ space :: (c :: name) ++ decl_params).
  change (text "export const " ++ (c :: name) ++ text " = asyncHandler(async (" ++ params)
    with (text "export" ++ space :: text "const" ++ space :: (c :: name)
          ++ text " = asyncHandler(async (" ++ params).
  change (text " = async (") with (space :: 61%N :: text " async (").
  rewrite replace_skip_nospace by (apply not_In_forallb; reflexivity).
  rewrite replace_skip by reflexivity.
  rewrite replace_skip_nospace by (apply not_In_forallb; reflexivity).
  rewrite replace_skip
    by (cbn [startswith app]; rewrite Hc1; apply andb_false_r).
  rewrite replace_skip_nospace by now apply all_in_Word_no_space.
  rewrite decl_params_split.
  change (text " = async (") with (space :: 61%N :: text " async (").
  rewrite replace_hit by discriminate.
  reflexivity.
Qed.

(** C7: for every match, the declaration as captured reads
    [export const <name> = async (<parameters>], and the rewritten one reads
    [export const <name> = asyncHandler(async (<parameters>] with the same
    name and the same parameter text: only [ = async (] became
    [ = asyncHandler(async (].  The replacement text starts with it. *)
Theorem declaration_rewriter s g rest :
  match_at pattern s = Some (g, rest) ->
  exists name,
    name <> [] /\ all_in Word name /\
    group g 1 = Some (text "export const " ++ name ++ text " = async (" ++ params) /\
    wrap_decl (group_text g 1) =
      text "export const " ++ name ++ text " = asyncHandler(async (" ++ params /\
    exists tl, replace_func g = wrap_decl (group_text g 1) ++ nl :: tl.
Proof.
  intros H. apply match_at_pattern_inv in H as (h & Hok & -> & -> & _).
  destruct Hok as (Hne & Hname & _).
  exists (h_name h). split; [assumption|]. split; [assumption|].
  split; [reflexivity|]. split.
  - apply (wrap_decl_spec Hne Hname).
  - unfold replace_func.
    destruct (group_text (handler_groups h) 2); eexists;
      rewrite <- !app_assoc; reflexivity.
Qed.

(** ** The scenario *)

(** C1, as the script behaves: on the scenario input the result is the
    wrapped declaration line, the trace statement, a line made of the two
    spaces that followed the trace statement, the two body lines without
    their indentation, and the closing line: six lines. *)
Theorem scenario_result : refactor_controller scenario_input = scenario_output.
Proof. vm_compute. reflexivity. Qed.

(** ** The command line *)

(** C8: run without a path argument, the script prints the usage line,
    exits with status 1 and does nothing else: no file is read or written,
    [refactor_controller] is not called, and the files are as they were. *)
Theorem missing_argument argv fs :
  length argv <= 1 ->
  main argv fs = (fs, [Printed usage], Exit 1) /\ 1 <> 0.
Proof.
  intros H. split; [|discriminate].
  destruct argv as [|prog [|path argv]]; simpl in H; try reflexivity. lia.
Qed.

(** ** Where the body ends *)

(** C2: in every match, the captured body ends where the first catch
    opening after [try {] starts: the text after the body opens a catch
    block, and no position inside the body does, whatever the nesting of
    braces.  A body with a try/catch of its own is thus cut at the inner
    catch. *)
Theorem body_ends_at_first_catch s g rest :
  match_at pattern s = Some (g, rest) ->
  exists head body tail,
    s = head ++ text "try {" ++ body ++ tail /\
    group g 3 = Some body /\
    opens_catch (skipn (length body) (body ++ tail)) /\
    forall i, i < length body -> ~ opens_catch (skipn i (body ++ tail)).
Proof.
  intros H. apply match_at_pattern_inv in H as (h & Hok & -> & -> & Hmin).
  exists (handler_decl h ++ h_gap h ++ h_trace h), (h_body h),
    (catch_open (h_ann h) ++ handler_close h ++ rest).
  split; [|split; [|split]].
  - unfold handler_text. now rewrite <- !app_assoc.
  - reflexivity.
  - rewrite skipn_length_app. exists (h_ann h), (handler_close h ++ rest).
    split; [apply Hok|reflexivity].
  - intros i Hi.
    rewrite skipn_app. replace (i - length (h_body h)) with 0 by lia.
    cbn [skipn]. apply Hmin with (w1 := firstn i (h_body h)).
    + symmetry. apply firstn_skipn.
    + intros E. apply (f_equal (@length _)) in E.
      rewrite length_skipn in E. simpl in E. lia.
Qed.

(** ** Text outside the matches *)

Lemma firstn_add (a b : nat) (t : str) :
  firstn (a + b) t = firstn a t ++ firstn b (skipn a t).
Proof.
  revert t; induction a as [|a IH]; intros [|c t]; simpl;
    try reflexivity.
  - now rewrite firstn_nil.
  - now rewrite IH.
Qed.

Lemma slice_split (s : str) i j k :
  i <= j -> j <= k -> slice s i k = slice s i j ++ slice s j k.
Proof.
  intros Hij Hjk. unfold slice.
  replace (k - i) with ((j - i) + (k - j)) by lia.
  rewrite firstn_add, skipn_skipn.
  now replace (j - i + i) with j by lia.
Qed.

Lemma skipn_slice (s : str) i j :
  i <= j -> skipn i s = slice s i j ++ skipn j s.
Proof.
  intros Hij. unfold slice.
  replace (skipn j s) with (skipn (j - i) (skipn i s)).
  - symmetry. apply firstn_skipn.
  - rewrite skipn_skipn. now replace (j - i + i) with j by lia.
Qed.

Lemma slice_middle (pre h post : str) :
  slice (pre ++ h ++ post) (length pre) (length pre + length h) = h.
Proof.
  unfold slice. rewrite skipn_length_app.
  replace (length pre + length h - length pre) with (length h) by lia.
  rewrite firstn_app, Nat.sub_diag, firstn_all. simpl. apply app_nil_r.
Qed.

(** The emitter copies every region of the document that meets no match
    span. *)
Lemma emit_keeps repl pre h post len ms :
  forall pos,
    spans_from pos len ms -> pos <= length pre ->
    Forall (clear_of (length pre) (length pre + length h)) ms ->
    exists a b, emit repl (pre ++ h ++ post) pos ms = a ++ h ++ b.
Proof.
  induction ms as [|m ms IH]; intros pos Hsp Hpos Hclear; simpl.
  - rewrite (@skipn_slice _ pos (length pre)) by assumption.
    rewrite skipn_length_app. eauto.
  - destruct Hsp as (Hs & Hse & He & Hsp). inv Hclear.
    match goal with H : clear_of _ _ _ |- _ => destruct H as [Hc|Hc] end.
    + destruct (IH (m_end m)) as (a & b & E); auto.
      rewrite E. exists (slice (pre ++ h ++ post) pos (m_start m)
                         ++ repl (m_groups m) ++ a), b.
      now rewrite <- !app_assoc.
    + rewrite (@slice_split _ pos (length pre) (m_start m)) by lia.
      rewrite (@slice_split _ (length pre) (length pre + length h) (m_start m)) by lia.
      rewrite slice_middle. rewrite <- !app_assoc. eauto.
Qed.

(** A region of the document that meets no match span is found as it is in
    the output. *)
Lemma outside_spans_kept pre h post :
  Forall (clear_of (length pre) (length pre + length h))
         (finditer pattern (pre ++ h ++ post)) ->
  exists a b, refactor_controller (pre ++ h ++ post) = a ++ h ++ b.
Proof.
  intros Hclear.
  unfold refactor_controller, re_sub.
  rewrite sub_loop_emit with (doc := pre ++ h ++ post) (off := 0);
    [|apply pattern_nonempty|lia|reflexivity].
  eapply emit_keeps; eauto; [|lia].
  apply (@finditer_loop_spans pattern pattern_nonempty _ (pre ++ h ++ post) 0).
Qed.

(** No match starts where the pattern does not match. *)
Lemma no_match_no_start pre t m :
  match_at pattern t = None ->
  In m (finditer pattern (pre ++ t)) -> m_start m <> length pre.
Proof.
  intros Hnone Hin Hstart.
  pose proof (@finditer_loop_matches pattern pattern_nonempty (pre ++ t)
                (S (length (pre ++ t))) (pre ++ t) 0 eq_refl) as Hall.
  rewrite Forall_forall in Hall. specialize (Hall m Hin).
  rewrite Hstart, skipn_length_app in Hall. congruence.
Qed.

(** ** The declaration of a match *)

Lemma skip_word_app w t :
  all_in Word w ->
  match t with [] => True | c :: _ => is_word c = false end ->
  skip_word (w ++ t) = t.
Proof.
  unfold all_in; induction w as [|c w IH]; simpl; intros Hw Ht.
  - destruct t as [|c t]; simpl; [reflexivity|now rewrite Ht].
  - apply andb_true_iff in Hw as [Hc Hw]. rewrite Hc. auto.
Qed.

Lemma is_word_space : is_word space = false.
Proof. reflexivity. Qed.

(** A handler starts with a declaration of the target shape. *)
Lemma handler_is_decl h rest :
  handler_ok h -> is_decl_at (handler_text h ++ rest) = true.
Proof.
  intros (Hne & Hname & _). unfold is_decl_at, handler_text, handler_decl.
  rewrite <- !app_assoc. rewrite startswith_app. cbn [andb].
  change 13 with (length (text "export const ")). rewrite skipn_length_app.
  destruct (h_name h) as [|c name]; [congruence|].
  unfold all_in in Hname; simpl in Hname.
  apply andb_true_iff in Hname as [Hc Hname].
  cbn [app]. rewrite Hc. cbn [andb].
  rewrite skip_word_app; [apply startswith_app|assumption|exact is_word_space].
Qed.

Lemma not_decl_no_match t : is_decl_at t = false -> match_at pattern t = None.
Proof.
  intros Hd. destruct (match_at pattern t) as [[g rest]|] eqn:Hm; [|reflexivity].
  apply match_at_pattern_inv in Hm as (h & Hok & -> & _).
  rewrite handler_is_decl in Hd by assumption. discriminate.
Qed.


(** ** The statement after the declaration *)

Lemma word_run_unique a a' r r' :
  all_in Word a -> all_in Word a' ->
  a ++ space :: r = a' ++ space :: r' -> a = a' /\ r = r'.
Proof.
  unfold all_in. revert a'; induction a as [|c a IH]; intros [|c' a'] Ha Ha' E;
    simpl in *.
  - inv E. auto.
  - inv E. apply andb_true_iff in Ha' as [Hc _].
    rewrite is_word_space in Hc. discriminate.
  - inv E. apply andb_true_iff in Ha as [Hc _].
    rewrite is_word_space in Hc. discriminate.
  - inv E. apply andb_true_iff in Ha as [_ Ha].
    apply andb_true_iff in Ha' as [_ Ha'].
    destruct (IH a' Ha Ha') as [-> ->]; auto.
Qed.

Lemma lstrip_app_space w t : all_in Space w -> lstrip (w ++ t) = lstrip t.
Proof.
  unfold all_in; induction w as [|c w IH]; simpl; intros Hw; [reflexivity|].
  apply andb_true_iff in Hw as [Hc Hw]. rewrite Hc. auto.
Qed.

(** After the declaration and white space, a handler goes on with the trace
    statement or with [try {]. *)
Lemma handler_after_decl name after h rest :
  all_in Word name -> handler_ok h ->
  declaration name ++ after = handler_text h ++ rest ->
  startswith trace_stmt (lstrip after) = true \/
  startswith (text "try {") (lstrip after) = true.
Proof.
  intros Hname (_ & Hname' & Hgap & Htr & _) E.
  unfold declaration, handler_text, handler_decl in E.
  rewrite <- !app_assoc in E. apply app_inv_head in E.
  change decl_params with (space :: text "= async (req: RequestWithTraceContext, res: Response) => {") in E.
  rewrite <- !app_comm_cons in E.
  apply word_run_unique in E as [_ E]; auto.
  apply app_inv_head in E. subst after.
  rewrite lstrip_app_space by assumption.
  destruct Htr as [->|(w & -> & Hw)].
  - right. cbn [app]. apply (startswith_app (text "try {")).
  - left. rewrite <- app_assoc. apply (startswith_app trace_stmt).
Qed.

(** C10, as the script behaves: after a declaration of the target shape
    and white space, only the statement [const { traceId, spanId } = req;]
    or [try {] lets the pattern match.  A handler that goes on with another
    statement starts no match, with the trace statement or without, and its
    text is found unchanged in the output when it lies outside the spans of
    the matches of the document. *)
Theorem trace_statement_must_match pre name after post :
  all_in Word name ->
  startswith trace_stmt (lstrip (after ++ post)) = false ->
  startswith (text "try {") (lstrip (after ++ post)) = false ->
  match_at pattern ((declaration name ++ after) ++ post) = None /\
  (forall m, In m (finditer pattern (pre ++ (declaration name ++ after) ++ post)) ->
     m_start m <> length pre) /\
  (Forall (clear_of (length pre) (length pre + length (declaration name ++ after)))
          (finditer pattern (pre ++ (declaration name ++ after) ++ post)) ->
   exists a b,
     refactor_controller (pre ++ (declaration name ++ after) ++ post)
     = a ++ (declaration name ++ after) ++ b).
Proof.
  intros Hname Htrace Htry.
  assert (Hnone : match_at pattern ((declaration name ++ after) ++ post) = None).
  { destruct (match_at pattern ((declaration name ++ after) ++ post))
      as [[g rest]|] eqn:Hm; [|reflexivity].
    apply match_at_pattern_inv in Hm as (h & Hok & E & _).
    rewrite <- app_assoc in E.
    destruct (@handler_after_decl _ _ _ _ Hname Hok E); congruence. }
  split; [assumption|]. split; [|apply outside_spans_kept].
  intros m Hin.
  exact (@no_match_no_start pre ((declaration name ++ after) ++ post) m Hnone Hin).
Qed.

(** ** A second pass *)

Lemma has_catch_app_l p s : has_catch s -> has_catch (p ++ s).
Proof.
  intros (a & t & -> & Ht). exists (p ++ a), t. now rewrite app_assoc.
Qed.

Lemma has_catch_app_r s q : has_catch s -> has_catch (s ++ q).
Proof.
  intros (a & t & -> & ann & r & Hann & ->).
  exists a, (catch_open ann ++ r ++ q). split.
  - now rewrite <- !app_assoc.
  - exists ann, (r ++ q). auto.
Qed.

(** A match holds the opening of a catch block. *)
Lemma match_has_catch t g rest :
  match_at pattern t = Some (g, rest) -> has_catch t.
Proof.
  intros H. apply match_at_pattern_inv in H as (h & Hok & -> & _).
  exists (handler_decl h ++ h_gap h ++ h_trace h ++ text "try {" ++ h_body h),
    (catch_open (h_ann h) ++ handler_close h ++ rest).
  split.
  - unfold handler_text. now rewrite <- !app_assoc.
  - exists (h_ann h), (handler_close h ++ rest). split; [apply Hok|reflexivity].
Qed.

(** A text without the opening of a catch block is left as it is. *)
Lemma no_catch_unchanged s : ~ has_catch s -> refactor_controller s = s.
Proof.
  intros Hs.
  assert (Hnone : search pattern s = None).
  { apply search_None. intros p t ->.
    destruct (match_at pattern t) as [[g rest]|] eqn:Hm; [|reflexivity].
    exfalso. apply Hs, has_catch_app_l. eapply match_has_catch; eauto. }
  unfold refactor_controller, re_sub. simpl. now rewrite Hnone.
Qed.

(** The body of a match holds no opening of a catch block. *)
Lemma body_no_catch h rest :
  (forall w1 w2, h_body h = w1 ++ w2 -> w2 <> [] ->
     ~ opens_catch (w2 ++ catch_open (h_ann h) ++ handler_close h ++ rest)) ->
  ~ has_catch (h_body h).
Proof.
  intros Hmin (a & t & E & ann & r & Hann & ->).
  apply (Hmin a _ E).
  - rewrite catch_open_cons. discriminate.
  - exists ann, (r ++ catch_open (h_ann h) ++ handler_close h ++ rest).
    split; [assumption|]. now rewrite <- !app_assoc.
Qed.

Lemma rstrip_no_catch s : ~ has_catch s -> ~ has_catch (rstrip s).
Proof.
  intros Hs Hr. apply Hs.
  destruct (rstrip_spec s) as (w & E & _). rewrite E.
  now apply has_catch_app_r.
Qed.

(** *** Removing the indentation makes no catch opening *)

Lemma dedent_same r : ~ In nl r -> dedent false r r.
Proof.
  induction r as [|c r IH]; intros Hr; constructor.
  destruct (N.eqb_spec c nl) as [->|_].
  - exfalso. apply Hr. now left.
  - apply IH. intros Hin. apply Hr. now right.
Qed.

Lemma dedent_line_false r X Y :
  ~ In nl r -> dedent true X Y -> dedent false (r ++ nl :: X) (r ++ nl :: Y).
Proof.
  induction r as [|c r IH]; intros Hr HXY; simpl.
  - constructor. now rewrite N.eqb_refl.
  - constructor. destruct (N.eqb_spec c nl) as [->|_].
    + exfalso. apply Hr. now left.
    + apply IH; auto. intros Hin. apply Hr. now right.
Qed.

Lemma dedent_line_true r X Y :
  ~ In nl r -> dedent true X Y -> dedent true (r ++ nl :: X) (r ++ nl :: Y).
Proof.
  intros Hr HXY. destruct r as [|c r]; simpl.
  - constructor. now rewrite N.eqb_refl.
  - constructor. destruct (N.eqb_spec c nl) as [->|_].
    + exfalso. apply Hr. now left.
    + apply dedent_line_false; auto. intros Hin. apply Hr. now right.
Qed.

Lemma dedent_refl b s : dedent b s s.
Proof. revert b; induction s; intros b; constructor; auto. Qed.

(** The lines of a text without their indentation are a [dedent] of it. *)
Lemma dedent_lines ls :
  (forall l, In l ls -> ~ In nl l) ->
  dedent true (join [nl] ls) (join [nl] (map clean_line ls)).
Proof.
  induction ls as [|l ls IH]; intros Hls; [constructor|].
  assert (Hl : ~ In nl l) by (apply Hls; now left).
  assert (Hrest : forall l', In l' ls -> ~ In nl l') by (intros; apply Hls; now right).
  specialize (IH Hrest).
  assert (Hstrip : startswith indent l = true -> ~ In nl (skipn 4 l)).
  { intros Hs Hin. apply Hl. apply startswith_true in Hs. rewrite Hs.
    apply in_or_app. now right. }
  destruct ls as [|l2 ls].
  - cbn [map join]. unfold clean_line.
    destruct (startswith indent l) eqn:Hs; [|apply dedent_refl].
    pose proof (startswith_true _ _ Hs) as E. rewrite E at 1.
    constructor. apply dedent_same. auto.
  - change (join [nl] (l :: l2 :: ls)) with (l ++ nl :: join [nl] (l2 :: ls)).
    change (join [nl] (map clean_line (l :: l2 :: ls)))
      with (clean_line l ++ nl :: join [nl] (map clean_line (l2 :: ls))).
    unfold clean_line at 1.
    destruct (startswith indent l) eqn:Hs; [|now apply dedent_line_true].
    pose proof (startswith_true _ _ Hs) as E. rewrite E at 1.
    rewrite <- app_assoc. constructor. apply dedent_line_false; auto.
Qed.

Lemma clean_body_dedent body :
  dedent true body (join [nl] (cleaned_lines (split nl body))).
Proof.
  rewrite cleaned_lines_map.
  rewrite <- (join_split body) at 1.
  apply dedent_lines. intros l. apply split_lines.
Qed.

(** What [dedent] does where the text goes on: it may drop an indentation,
    and then keeps the next character. *)
Lemma dedent_inv b s t :
  dedent b s t ->
  exists p s1, s = p ++ s1 /\ all_in Space p /\
    ((s1 = [] /\ t = []) \/
     exists x s2 t2, s1 = x :: s2 /\ t = x :: t2 /\ dedent (N.eqb x nl) s2 t2).
Proof.
  intros H. inv H.
  - exists [], []. split; [reflexivity|]. split; [reflexivity|]. now left.
  - match goal with H : dedent false _ _ |- _ => inv H end.
    + exists indent, []. split; [reflexivity|]. split; [reflexivity|]. now left.
    + eexists indent, (_ :: _). split; [reflexivity|]. split; [reflexivity|].
      right. do 3 eexists. repeat split; eassumption.
  - eexists [], (_ :: _). split; [reflexivity|]. split; [reflexivity|].
    right. do 3 eexists. repeat split; eassumption.
Qed.

(** A literal without newline met inside a line was there before. *)
Lemma dedent_literal l :
  ~ In nl l ->
  forall s t, dedent false s (l ++ t) ->
  exists s', s = l ++ s' /\ dedent false s' t.
Proof.
  induction l as [|x l IH]; intros Hl s t H; simpl in *.
  - eauto.
  - inv H. destruct (N.eqb_spec x nl) as [->|_].
    + exfalso. apply Hl. now left.
    + match goal with H : dedent false _ _ |- _ => apply IH in H as (s' & -> & H) end.
      * eauto.
      * intros Hin. apply Hl. now right.
Qed.

(** White space followed by a literal was white space followed by the
    literal before. *)
Lemma dedent_space_literal x l w :
  x <> nl -> ~ In nl l -> all_in Space w ->
  forall b s t, dedent b s (w ++ x :: l ++ t) ->
  exists w' s', s = w' ++ x :: l ++ s' /\ all_in Space w'.
Proof.
  intros Hx Hl. unfold all_in.
  induction w as [|c w IH]; intros Hw b s t H; simpl in *.
  - apply dedent_inv in H as (p & s1 & -> & Hp & [[_ E]|(y & s2 & t2 & -> & E & H)]);
      [discriminate|].
    injection E as E1 E2. subst y t2.
    apply N.eqb_neq in Hx. rewrite Hx in H.
    apply dedent_literal in H as (s' & -> & _); auto.
    exists p, s'. auto.
  - apply andb_true_iff in Hw as [Hc Hw].
    apply dedent_inv in H as (p & s1 & -> & Hp & [[_ E]|(y & s2 & t2 & -> & E & H)]);
      [discriminate|].
    injection E as E1 E2. subst y t2.
    apply (IH Hw) in H as (w' & s' & -> & Hw').
    exists (p ++ c :: w'), s'. split.
    + now rewrite <- app_assoc.
    + unfold all_in in *. rewrite forallb_app. simpl. now rewrite Hp, Hc, Hw'.
Qed.

Lemma no_nl_literal (l : str) :
  forallb (fun x => negb (N.eqb x nl)) l = true -> ~ In nl l.
Proof. apply not_In_forallb. Qed.

(** A catch opening met after [dedent] was one before. *)
Lemma dedent_opens_catch s t :
  dedent false s t -> opens_catch (brace :: t) -> opens_catch (brace :: s).
Proof.
  intros H (ann & r & Hann & E).
  assert (Et : t = text " catch (error" ++ ann ++ text ") {" ++ r).
  { rewrite catch_open_cons, <- app_comm_cons in E. injection E as E.
    rewrite E. unfold catch_open_rest. now rewrite <- !app_assoc. }
  subst t. clear E.
  apply dedent_literal with (l := text " catch (error") in H as (s1 & -> & H);
    [|now apply no_nl_literal].
  destruct Hann as [->|(w & -> & Hw)].
  - apply dedent_literal with (l := text ") {") in H as (s2 & -> & _);
      [|now apply no_nl_literal].
    exists [], s2. split; [now left|reflexivity].
  - rewrite <- !app_assoc in H.
    apply dedent_literal with (l := text ":") in H as (s2 & -> & H);
      [|now apply no_nl_literal].
    apply dedent_space_literal with (x := 97%N) (l := text "ny) {") in H
      as (w' & s3 & -> & Hw');
      [|discriminate|now apply no_nl_literal|assumption].
    exists (text ":" ++ w' ++ text "any"), s3. split.
    + right. eauto.
    + unfold catch_open. rewrite <- !app_assoc. reflexivity.
Qed.

Lemma opens_catch_brace c t : opens_catch (c :: t) -> c = brace.
Proof.
  intros (ann & r & _ & E). rewrite catch_open_cons in E. now inv E.
Qed.

(** Removing indentation makes no catch opening. *)
Lemma dedent_has_catch b s t : dedent b s t -> has_catch t -> has_catch s.
Proof.
  induction 1 as [b|s t _ IH|b c s t Hd IH]; intros Ht.
  - assumption.
  - apply has_catch_app_l. auto.
  - destruct Ht as ([|x a] & u & E & Hu); simpl in E.
    + subst u. pose proof (opens_catch_brace Hu) as ->.
      exists [], (brace :: s). split; [reflexivity|].
      apply dedent_opens_catch with (t := t); assumption.
    + injection E as <- ->.
      apply (has_catch_app_l [c]). apply IH. exists a, u. auto.
Qed.

(** The cleaned body of a match holds no catch opening. *)
Lemma clean_body_no_catch body : ~ has_catch body -> ~ has_catch (clean_body body).
Proof.
  intros Hb. unfold clean_body. apply rstrip_no_catch.
  intros Hj. apply Hb. eapply dedent_has_catch; [apply clean_body_dedent|eassumption].
Qed.

(** *** The replacement text holds no catch opening *)

Lemma has_catch_cons c s :
  has_catch (c :: s) -> opens_catch (c :: s) \/ has_catch s.
Proof.
  intros ([|x a] & t & E & Ht); simpl in E.
  - left. now subst t.
  - right. injection E as _ ->. exists a, t. auto.
Qed.

Lemma has_catch_skip a b : ~ In brace a -> has_catch (a ++ b) -> has_catch b.
Proof.
  induction a as [|c a IH]; simpl; intros Ha H; [assumption|].
  apply has_catch_cons in H as [H|H].
  - exfalso. apply Ha. left. apply (opens_catch_brace H).
  - apply IH; auto.
Qed.

Lemma opens_catch_starts t :
  opens_catch t -> startswith (text "} catch (error") t = true.
Proof.
  intros (ann & r & _ & ->). unfold catch_open. rewrite <- app_assoc.
  apply startswith_app.
Qed.

Lemma is_word_not_brace w : all_in Word w -> ~ In brace w.
Proof.
  unfold all_in; intros H Hin. rewrite forallb_forall in H.
  now apply (is_word_not (c := brace) (d := brace)); auto.
Qed.

(** A catch opening ends with an opening brace, which the closing line of
    the replacement does not hold. *)
Lemma catch_open_rev ann : exists l, rev (catch_open ann) = 123%N :: l.
Proof.
  unfold catch_open. rewrite !rev_app_distr. simpl. eauto.
Qed.

Lemma has_catch_before_close s :
  has_catch (s ++ nl :: text "});") -> has_catch s.
Proof.
  intros (p & t & E & ann & r & Hann & ->).
  apply app_eq_app in E as [l [[-> E]|[-> E]]].
  - apply app_eq_app in E as [l2 [[E1 E2]|[-> E2]]].
    + destruct l2 as [|y l2].
      * rewrite app_nil_r in E1. subst l.
        apply has_catch_app_l. exists [], (catch_open ann). split; [reflexivity|].
        exists ann, []. now rewrite app_nil_r.
      * exfalso. destruct (catch_open_rev ann) as (l3 & Hrev).
        rewrite E1, rev_app_distr in Hrev.
        assert (Hin : In 123%N (y :: l2)).
        { apply in_rev. destruct (rev (y :: l2)) as [|z l4] eqn:Hz.
          - apply (f_equal (@length _)) in Hz. rewrite length_rev in Hz. discriminate.
          - simpl in Hrev. injection Hrev as -> _. now left. }
        assert (Hin' : In 123%N (nl :: text "});")).
        { rewrite E2. apply in_or_app. now left. }
        revert Hin'. now apply not_In_forallb.
    + apply has_catch_app_l. exists [], (catch_open ann ++ l2).
      split; [reflexivity|]. exists ann, l2. auto.
  - exfalso. apply (f_equal (@length _)) in E.
    rewrite !length_app in E. unfold catch_open in E.
    rewrite !length_app in E. simpl in E. lia.
Qed.

(** The replacement of a handler, laid out. *)
Lemma replace_func_handler h :
  handler_ok h ->
  replace_func (handler_groups h) =
  (text "export const " ++ h_name h ++ text " = asyncHandler(async (" ++ params) ++
  [nl] ++ h_trace h ++ clean_body (h_body h) ++ [nl] ++ text "});".
Proof.
  intros (Hne & Hname & _). unfold replace_func.
  change (group_text (handler_groups h) 1) with (handler_decl h).
  change (group_text (handler_groups h) 2) with (h_trace h).
  change (group_text (handler_groups h) 3) with (h_body h).
  unfold handler_decl. rewrite (wrap_decl_spec Hne Hname).
  destruct (h_trace h); rewrite <- !app_assoc; reflexivity.
Qed.

Lemma trace_no_catch tr X : trace_ok tr -> has_catch (tr ++ X) -> has_catch X.
Proof.
  intros [->|(w & -> & Hw)] H; [assumption|].
  rewrite <- app_assoc in H.
  change trace_stmt
    with (text "const { traceId, spanId " ++ brace :: text " = req;") in H.
  rewrite <- app_assoc in H.
  apply has_catch_skip in H; [|now apply not_In_forallb].
  rewrite <- app_comm_cons in H.
  apply has_catch_cons in H as [H|H].
  - apply opens_catch_starts in H. discriminate.
  - apply has_catch_skip in H; [|now apply not_In_forallb].
    apply has_catch_skip in H; [assumption|].
    now apply all_in_Space_no_brace.
Qed.

(** The replacement of a match holds no catch opening. *)
Lemma replace_func_no_catch h :
  handler_ok h -> ~ has_catch (h_body h) ->
  ~ has_catch (replace_func (handler_groups h)).
Proof.
  intros Hok Hbody H. rewrite (replace_func_handler Hok) in H.
  destruct Hok as (Hne & Hname & _ & Htr & _).
  rewrite <- !app_assoc in H.
  apply has_catch_skip in H; [|now apply not_In_forallb].
  apply has_catch_skip in H; [|now apply is_word_not_brace].
  apply has_catch_skip in H; [|now apply not_In_forallb].
  apply has_catch_skip in H; [|now apply not_In_forallb].
  apply has_catch_skip in H; [|now apply not_In_forallb].
  apply trace_no_catch in H; [|assumption].
  apply has_catch_before_close in H.
  revert H. now apply clean_body_no_catch.
Qed.

Lemma search_here r s g rest :
  match_at r s = Some (g, rest) ->
  search r s = Some ([], g, consumed s rest, rest).
Proof. intros H. destruct s; simpl; now rewrite H. Qed.

(** *** The replacement text holds no declaration of the target shape *)

Lemma may_start_app p l Y :
  may_start p l = false -> startswith p (l ++ Y) = false.
Proof.
  revert l; induction p as [|a p IH]; intros [|b l]; simpl; try discriminate.
  destruct (N.eqb a b); simpl; auto.
Qed.

Lemma is_decl_at_starts t :
  is_decl_at t = true -> startswith (text "export const ") t = true.
Proof. unfold is_decl_at. intros H. now apply andb_true_iff in H as [H _]. Qed.

Lemma has_decl_cons c s :
  has_decl (c :: s) -> is_decl_at (c :: s) = true \/ has_decl s.
Proof.
  intros ([|x a] & t & E & Ht); simpl in E.
  - left. now subst t.
  - right. injection E as _ ->. exists a, t. auto.
Qed.

Lemma has_decl_app_l p s : has_decl s -> has_decl (p ++ s).
Proof.
  intros (a & t & -> & Ht). exists (p ++ a), t. now rewrite app_assoc.
Qed.

Lemma has_decl_skip_lit l Y :
  clear_lit l = true -> has_decl (l ++ Y) -> has_decl Y.
Proof.
  induction l as [|c l IH]; intros Hl H; [assumption|].
  cbn [clear_lit] in Hl. apply andb_true_iff in Hl as [Hc Hl].
  apply negb_true_iff in Hc.
  change ((c :: l) ++ Y) with (c :: l ++ Y) in H.
  apply has_decl_cons in H as [H|H]; [|auto].
  apply is_decl_at_starts in H.
  change (c :: l ++ Y) with ((c :: l) ++ Y) in H.
  rewrite (may_start_app _ _ Y Hc) in H. discriminate.
Qed.

Lemma has_decl_skip_space w Y :
  all_in Space w -> has_decl (w ++ Y) -> has_decl Y.
Proof.
  unfold all_in; induction w as [|c w IH]; simpl; intros Hw H; [assumption|].
  apply andb_true_iff in Hw as [Hc Hw].
  apply has_decl_cons in H as [H|H]; [|auto].
  apply is_decl_at_starts in H. cbn [text startswith] in H.
  apply andb_true_iff in H as [H _]. apply N.eqb_eq in H. subst c.
  vm_compute in Hc. discriminate.
Qed.

Lemma has_decl_skip_name name Y :
  all_in Word name ->
  has_decl (name ++ text " = asyncHandler(async (" ++ Y) ->
  has_decl (text " = asyncHandler(async (" ++ Y).
Proof.
  induction name as [|c name IH]; intros Hn H; [assumption|].
  assert (Hn' : all_in Word name).
  { unfold all_in in *. simpl in Hn. now apply andb_true_iff in Hn as [_ Hn]. }
  change ((c :: name) ++ text " = asyncHandler(async (" ++ Y)
    with (c :: name ++ text " = asyncHandler(async (" ++ Y) in H.
  apply has_decl_cons in H as [H|H]; [|auto].
  exfalso. apply is_decl_at_starts, startswith_true in H.
  change (text "export const ") with (text "export" ++ space :: text "const ") in H.
  change (c :: name ++ text " = asyncHandler(async (" ++ Y)
    with ((c :: name) ++ space :: text "= asyncHandler(async (" ++ Y) in H.
  rewrite <- app_assoc in H.
  apply word_run_unique in H as [_ H]; [|assumption|reflexivity].
  simpl in H. discriminate.
Qed.

(** The wrapped declaration is no declaration of the target shape. *)
Lemma wrapped_not_decl name Y :
  name <> [] -> all_in Word name ->
  is_decl_at (text "export const " ++ name ++ text " = asyncHandler(async (" ++ Y) = false.
Proof.
  intros Hne Hn. unfold is_decl_at. rewrite startswith_app. cbn [andb].
  change 13 with (length (text "export const ")). rewrite skipn_length_app.
  destruct name as [|c name]; [congruence|].
  unfold all_in in Hn; simpl in Hn. apply andb_true_iff in Hn as [Hc Hn].
  cbn [app]. rewrite Hc. cbn [andb].
  rewrite skip_word_app; [reflexivity|assumption|exact is_word_space].
Qed.

Lemma skip_word_split t : exists w, t = w ++ skip_word t /\ all_in Word w.
Proof.
  induction t as [|c t (w & E & Hw)]; [now exists []|].
  cbn [skip_word]. destruct (is_word c) eqn:Hc.
  - exists (c :: w). split; [simpl; now f_equal|].
    unfold all_in in *. simpl. now rewrite Hc.
  - now exists [].
Qed.

(** A text starts a declaration exactly when it starts with the
    declaration of some name. *)
Lemma is_decl_at_inv t :
  is_decl_at t = true ->
  exists name r, name <> [] /\ all_in Word name /\ t = declaration name ++ r.
Proof.
  unfold is_decl_at. intros H. apply andb_true_iff in H as [Hs H].
  apply startswith_true in Hs.
  change (length (text "export const ")) with 13 in Hs.
  destruct (skipn 13 t) as [|c t'] eqn:Ht; [discriminate|].
  apply andb_true_iff in H as [Hc Hp].
  destruct (skip_word_split t') as (w & Ew & Hw).
  apply startswith_true in Hp.
  exists (c :: w), (skipn (length decl_params) (skip_word t')).
  split; [discriminate|]. split.
  - unfold all_in in *. simpl. now rewrite Hc.
  - unfold declaration. rewrite <- !app_assoc. rewrite <- Hp.
    rewrite <- app_comm_cons, <- Ew. exact Hs.
Qed.

Lemma declaration_is_decl name r :
  name <> [] -> all_in Word name -> is_decl_at (declaration name ++ r) = true.
Proof.
  intros Hne Hname. unfold is_decl_at, declaration.
  rewrite <- !app_assoc. rewrite startswith_app. cbn [andb].
  change 13 with (length (text "export const ")). rewrite skipn_length_app.
  destruct name as [|c name]; [congruence|].
  unfold all_in in Hname; simpl in Hname.
  apply andb_true_iff in Hname as [Hc Hname].
  cbn [app]. rewrite Hc. cbn [andb].
  rewrite skip_word_app; [apply startswith_app|assumption|exact is_word_space].
Qed.

Lemma declaration_no_nl name : all_in Word name -> ~ In nl (declaration name).
Proof.
  intros Hn Hin. unfold declaration in Hin.
  apply in_app_or in Hin as [Hin|Hin].
  - revert Hin. now apply no_nl_literal.
  - apply in_app_or in Hin as [Hin|Hin].
    + unfold all_in in Hn. rewrite forallb_forall in Hn.
      now apply (is_word_not (c := nl) (d := nl)); auto.
    + revert Hin. now apply no_nl_literal.
Qed.

Lemma declaration_nonempty name : declaration name <> [].
Proof. unfold declaration. discriminate. Qed.

(** A text holds a declaration exactly when the declaration of some name
    occurs in it. *)
Lemma has_decl_occurs s :
  has_decl s <->
  exists a name r, name <> [] /\ all_in Word name /\ s = a ++ declaration name ++ r.
Proof.
  split.
  - intros (a & t & -> & Ht).
    apply is_decl_at_inv in Ht as (name & r & Hne & Hn & ->).
    exists a, name, r. auto.
  - intros (a & name & r & Hne & Hn & ->).
    exists a, (declaration name ++ r). split; [reflexivity|].
    now apply declaration_is_decl.
Qed.

(** A text without newline that is found in [A ++ nl :: B] is found in [A]
    or in [B]. *)
Lemma occurs_across_nl (A B a L r : str) :
  ~ In nl L -> A ++ nl :: B = a ++ L ++ r ->
  (exists r1, A = a ++ L ++ r1) \/ (exists a1, B = a1 ++ L ++ r).
Proof.
  intros HL E. apply app_eq_app in E as [l [[-> E]|[-> E]]].
  - symmetry in E. apply app_eq_app in E as [l2 [[-> E]|[-> E]]].
    + left. now exists l2.
    + destruct l2 as [|x l2]; simpl in E.
      * left. exists []. now rewrite !app_nil_r.
      * injection E as E1 _. exfalso. apply HL. apply in_or_app. right.
        rewrite E1. now left.
  - destruct l as [|x l]; simpl in E.
    + destruct L as [|y L]; simpl in E.
      * left. exists []. now rewrite !app_nil_r.
      * injection E as E1 _. exfalso. apply HL. rewrite <- E1. now left.
    + injection E as _ ->. right. now exists l.
Qed.

(** Text without newline found after [dedent] was there before. *)
Lemma dedent_occurs b s t :
  dedent b s t ->
  forall a L r, L <> [] -> ~ In nl L -> t = a ++ L ++ r ->
  exists a' r', s = a' ++ L ++ r'.
Proof.
  induction 1 as [b|s t _ IH|b c s t Hd IH]; intros a L r HL Hnl E.
  - symmetry in E. apply app_eq_nil in E as [_ E].
    apply app_eq_nil in E as [E _]. congruence.
  - destruct (IH a L r HL Hnl E) as (a' & r' & ->).
    exists (indent ++ a'), r'. now rewrite <- app_assoc.
  - destruct a as [|x a]; simpl in E.
    + destruct L as [|y L]; [congruence|]. simpl in E. injection E as <- ->.
      destruct (N.eqb_spec c nl) as [->|_].
      * exfalso. apply Hnl. now left.
      * apply dedent_literal in Hd as (s' & -> & _).
        -- exists [], s'. reflexivity.
        -- intros Hin. apply Hnl. now right.
    + injection E as <- ->.
      destruct (IH a L r HL Hnl eq_refl) as (a' & r' & ->).
      exists (c :: a'), r'. reflexivity.
Qed.

(** The cleaned body holds no declaration that the body did not hold. *)
Lemma clean_body_no_decl body : ~ has_decl body -> ~ has_decl (clean_body body).
Proof.
  intros Hb Hc. apply Hb.
  apply has_decl_occurs in Hc as (a & name & r & Hne & Hn & E).
  unfold clean_body in E.
  destruct (rstrip_spec (join [nl] (cleaned_lines (split nl body)))) as (w & Ej & _).
  rewrite E, <- !app_assoc in Ej.
  destruct (@dedent_occurs _ _ _ (clean_body_dedent body) a (declaration name) (r ++ w))
    as (a' & r' & Eb);
    [apply declaration_nonempty|now apply declaration_no_nl|exact Ej|].
  apply has_decl_occurs. exists a', name, r'. auto.
Qed.

(** After the cleaned body comes a newline: a declaration that starts in the
    cleaned body lies in it. *)
Lemma has_decl_before_nl cb T :
  has_decl (cb ++ nl :: T) -> has_decl cb \/ has_decl T.
Proof.
  intros H. apply has_decl_occurs in H as (a & name & r & Hne & Hn & E).
  apply occurs_across_nl in E as [(r1 & E)|(a1 & E)]; [| |now apply declaration_no_nl].
  - left. apply has_decl_occurs. exists a, name, r1. auto.
  - right. apply has_decl_occurs. exists a1, name, r. auto.
Qed.

(** The replacement of a match followed by the text after the match holds
    no declaration of the target shape when the body and that text hold
    none. *)
Lemma replace_func_no_decl h rest :
  handler_ok h -> ~ has_decl (h_body h) -> ~ has_decl rest ->
  ~ has_decl (replace_func (handler_groups h) ++ rest).
Proof.
  intros Hok Hbody Hrest H. rewrite (replace_func_handler Hok) in H.
  destruct Hok as (Hne & Hname & _ & Htr & _).
  rewrite <- !app_assoc in H.
  change (text "export const ") with (101%N :: text "xport const ") in H.
  rewrite <- app_comm_cons in H.
  apply has_decl_cons in H as [H|H].
  { change (101%N :: text "xport const " ++ h_name h ++ text " = asyncHandler(async (" ++
            params ++ [nl] ++ h_trace h ++ clean_body (h_body h) ++ [nl] ++ text "});" ++ rest)
      with (text "export const " ++ h_name h ++ text " = asyncHandler(async (" ++
            params ++ [nl] ++ h_trace h ++ clean_body (h_body h) ++ [nl] ++ text "});" ++ rest)
      in H.
    rewrite wrapped_not_decl in H by assumption. discriminate. }
  apply has_decl_skip_lit in H; [|reflexivity].
  apply has_decl_skip_name in H; [|assumption].
  apply has_decl_skip_lit in H; [|reflexivity].
  apply has_decl_skip_lit in H; [|reflexivity].
  apply has_decl_skip_lit in H; [|reflexivity].
  assert (H' : has_decl (clean_body (h_body h) ++ [nl] ++ text "});" ++ rest)).
  { destruct Htr as [E|(w & E & Hw)]; rewrite E in H; [exact H|].
    rewrite <- app_assoc in H.
    apply has_decl_skip_lit in H; [|reflexivity].
    now apply has_decl_skip_space in H. }
  clear H. apply has_decl_before_nl in H' as [H|H].
  - revert H. now apply clean_body_no_decl.
  - apply has_decl_skip_lit in H; [|reflexivity]. auto.
Qed.

(** A text that holds no declaration of the target shape holds no match and
    is left as it is. *)
Lemma no_decl_no_match s :
  ~ has_decl s -> forall p t, s = p ++ t -> match_at pattern t = None.
Proof.
  intros Hs p t ->. apply not_decl_no_match.
  destruct (is_decl_at t) eqn:Ht; [|reflexivity].
  exfalso. apply Hs. now exists p, t.
Qed.

Lemma no_decl_unchanged s : ~ has_decl s -> refactor_controller s = s.
Proof.
  intros Hs. pose proof (no_decl_no_match Hs) as Hnone.
  rewrite <- search_None in Hnone.
  rewrite refactor_controller_step. now rewrite Hnone.
Qed.

(** What [no_decl_in] computes. *)
Lemma no_decl_in_spec pre post :
  no_decl_in pre post = true ->
  forall p1 p2, pre = p1 ++ p2 -> p2 <> [] -> is_decl_at (p2 ++ post) = false.
Proof.
  induction pre as [|c pre IH]; intros H p1 p2 E Hp2.
  - symmetry in E. apply app_eq_nil in E as [_ E]. congruence.
  - cbn [no_decl_in] in H. apply andb_true_iff in H as [Hc H].
    apply negb_true_iff in Hc.
    destruct p1 as [|x p1]; simpl in E.
    + now subst p2.
    + injection E as _ E. now apply (IH H p1 p2).
Qed.

Lemma no_decl_in_suffix c d a t :
  no_decl_in d [] = true -> c :: d = a ++ t -> a <> [] -> is_decl_at t = false.
Proof.
  intros H E Ha. destruct a as [|x a]; [congruence|].
  simpl in E. injection E as _ E.
  destruct t as [|y t]; [reflexivity|].
  rewrite <- (app_nil_r (y :: t)).
  apply (@no_decl_in_spec d [] H a (y :: t)); [assumption|discriminate].
Qed.

(** A document that is one match of the pattern, from its first character
    to its last: the script replaces it, and a second pass finds nothing. *)
Lemma whole_match_second_pass doc g :
  match_at pattern doc = Some (g, []) ->
  refactor_controller doc = replace_func g /\
  finditer pattern (refactor_controller doc) = [] /\
  refactor_controller (refactor_controller doc) = refactor_controller doc.
Proof.
  intros H.
  assert (E : refactor_controller doc = replace_func g).
  { rewrite refactor_controller_step, (search_here _ _ H).
    rewrite (no_catch_unchanged (s := [])).
    - now rewrite app_nil_r.
    - intros (a & t & Ea & Ht). symmetry in Ea. apply app_eq_nil in Ea as [_ ->].
      apply opens_catch_starts in Ht. discriminate. }
  apply match_at_pattern_inv in H as (h & Hok & _ & -> & Hmin).
  assert (Hno : ~ has_catch (replace_func (handler_groups h))).
  { apply replace_func_no_catch; [assumption|]. eapply body_no_catch; eauto. }
  rewrite E. split; [reflexivity|]. split.
  - apply finditer_nil. intros p t Ept.
    destruct (match_at pattern t) as [[g' rest']|] eqn:Hm; [|reflexivity].
    exfalso. apply Hno. rewrite Ept. apply has_catch_app_l.
    eapply match_has_catch; eauto.
  - now apply no_catch_unchanged.
Qed.

(** A document that starts with a match and holds no other declaration of
    the target shape: the script replaces the match, keeps the text after
    it, and a second pass finds nothing. *)
Lemma one_declaration_second_pass doc g rest :
  match_at pattern doc = Some (g, rest) ->
  no_decl_in (tl doc) [] = true ->
  refactor_controller doc = replace_func g ++ rest /\
  finditer pattern (refactor_controller doc) = [] /\
  refactor_controller (refactor_controller doc) = refactor_controller doc.
Proof.
  intros H Hone.
  assert (Hstep : refactor_controller doc = replace_func g ++ refactor_controller rest).
  { rewrite refactor_controller_step at 1. now rewrite (search_here _ _ H). }
  apply match_at_pattern_inv in H as (h & Hok & -> & -> & _).
  pose proof (@handler_text_nonempty h) as Hne.
  destruct (handler_text h) as [|c ht] eqn:Eh; [congruence|].
  cbn [app tl] in Hone.
  assert (Hrest : ~ has_decl rest).
  { intros (a & t & -> & Ht).
    rewrite (@no_decl_in_suffix c (ht ++ a ++ t) ((c :: ht) ++ a) t Hone) in Ht;
      [discriminate|now rewrite <- !app_assoc|discriminate]. }
  assert (Hbody : ~ has_decl (h_body h)).
  { intros (a & t & Eb & Ht).
    apply is_decl_at_inv in Ht as (name & r & Hn0 & Hn & ->).
    pose proof (@declaration_is_decl name
                  (r ++ catch_open (h_ann h) ++ handler_close h ++ rest) Hn0 Hn) as Hd.
    rewrite (@no_decl_in_suffix c (ht ++ rest)
               (handler_decl h ++ h_gap h ++ h_trace h ++ text "try {" ++ a)
               (declaration name ++ r ++ catch_open (h_ann h) ++ handler_close h ++ rest)
               Hone) in Hd; [discriminate| |unfold handler_decl; discriminate].
    change (c :: ht ++ rest) with ((c :: ht) ++ rest). rewrite <- Eh.
    unfold handler_text. rewrite Eb. now rewrite <- !app_assoc. }
  rewrite (no_decl_unchanged Hrest) in Hstep.
  pose proof (replace_func_no_decl Hok Hbody Hrest) as Hout.
  rewrite Hstep. split; [reflexivity|]. split.
  - apply finditer_nil. now apply no_decl_no_match.
  - now apply no_decl_unchanged.
Qed.

(** C5, as the script behaves: when the document starts with a match of the
    pattern and either is that match, from its first character to its last,
    or holds no other declaration of the target shape, the script replaces
    the match and keeps the text after it, and a second pass changes nothing
    more: the rewritten text holds no match of the pattern. *)
Theorem second_pass_unchanged doc g rest :
  match_at pattern doc = Some (g, rest) ->
  rest = [] \/ no_decl_in (tl doc) [] = true ->
  refactor_controller doc = replace_func g ++ rest /\
  finditer pattern (refactor_controller doc) = [] /\
  refactor_controller (refactor_controller doc) = refactor_controller doc.
Proof.
  intros H [->|Hone].
  - rewrite app_nil_r. now apply whole_match_second_pass.
  - now apply one_declaration_second_pass.
Qed.

(** ** The examples *)

Lemma contains_here h s : startswith h s = true -> contains h s = true.
Proof. intros H. destruct s; simpl; now rewrite H. Qed.

Lemma contains_complete h a b : contains h (a ++ h ++ b) = true.
Proof.
  induction a as [|c a IH].
  - cbn [app]. apply contains_here, startswith_app.
  - cbn [app contains]. rewrite IH. apply orb_true_r.
Qed.

Lemma not_contains h s : contains h s = false -> ~ exists a b, s = a ++ h ++ b.
Proof. intros H (a & b & ->). now rewrite contains_complete in H. Qed.

Lemma clear_ofb_Forall a b ms :
  forallb (clear_ofb a b) ms = true -> Forall (clear_of a b) ms.
Proof.
  rewrite forallb_forall, Forall_forall. intros H m Hm.
  specialize (H m Hm). unfold clear_ofb in H. unfold clear_of.
  apply orb_true_iff in H as [H|H]; apply Nat.leb_le in H; auto.
Qed.


Lemma first_third_result :
  refactor_controller (first_handler ++ third_handler) = first_third_output.
Proof. vm_compute. reflexivity. Qed.

(** Two handlers in one document are two matches, one after the other. *)
Example two_handlers_spans :
  map (fun m => (m_start m, m_end m))
      (finditer pattern (scenario_input ++ [nl; nl] ++ scenario_input))
  = [(0, 275); (277, 552)].
Proof. vm_compute. reflexivity. Qed.

Lemma scenario_margin_result :
  refactor_controller scenario_input_margin <> scenario_expected_margin.
Proof. vm_compute. discriminate. Qed.

(** ** More on the matches and their replacement *)

Lemma decl_re_parses name g :
  name <> [] -> all_in Word name ->
  parses decl_re (text "export const " ++ name ++ decl_params) g g.
Proof.
  intros Hne Hname. unfold decl_re.
  apply parses_Seq with (g1 := g); [constructor|].
  apply parses_Seq with (g1 := g); constructor; auto.
Qed.

Lemma trace_re_parses tr g : trace_ok tr -> parses trace_re tr g g.
Proof.
  intros [->|(w & -> & Hw)]; unfold trace_re.
  - apply parses_Opt_none.
  - apply parses_Opt_some.
    apply parses_Seq with (g1 := g); constructor; auto.
Qed.

(** The text of a handler is accepted by [pattern], with its parts as
    captures. *)
Lemma pattern_parses h :
  handler_ok h -> parses pattern (handler_text h) [] (handler_groups h).
Proof.
  intros (Hne & Hname & Hgap & Htr & Hann & Hend).
  unfold pattern, handler_text, handler_groups.
  eapply parses_Seq.
  { apply parses_Group. apply decl_re_parses; eassumption. }
  eapply parses_Seq; [apply parses_Star; exact Hgap|].
  eapply parses_Seq.
  { apply parses_Group. apply trace_re_parses; eassumption. }
  eapply parses_Seq; [apply parses_Lit|].
  eapply parses_Seq.
  { apply parses_Group. apply parses_LazyStar. apply all_in_Any. }
  unfold handler_close. now apply tail_re_parses.
Qed.

(** X1: the pattern finds every handler of the target shape: the handler
    starts a match where it stands, so a document that holds one has a
    match. *)
Theorem handler_is_matched h pre rest :
  handler_ok h ->
  match_at pattern (handler_text h ++ rest) <> None /\
  finditer pattern (pre ++ handler_text h ++ rest) <> [].
Proof.
  intros Hok.
  assert (Hm : match_at pattern (handler_text h ++ rest) <> None).
  { eapply match_at_complete. apply pattern_parses; assumption. }
  split; [assumption|].
  intros Hnil. apply Hm.
  rewrite finditer_nil in Hnil. now apply (Hnil pre).
Qed.


Lemma contains_app_r lit a b : contains lit b = true -> contains lit (a ++ b) = true.
Proof.
  intros H. induction a as [|c a IH]; [assumption|].
  cbn [app contains]. rewrite IH. apply orb_true_r.
Qed.

Ltac find_literal :=
  repeat first [ apply contains_here, startswith_app | apply contains_app_r ].

(** A matched text holds the literal pieces of the pattern. *)
Lemma match_contains p t g rest lit :
  match_at pattern t = Some (g, rest) ->
  In lit [ text "export const "; decl_params; text "try {";
           text "} catch (error"; text ") {"; text "};" ] ->
  contains lit (p ++ t) = true.
Proof.
  intros H Hin. apply match_at_pattern_inv in H as (h & _ & -> & _).
  unfold handler_text, handler_decl, catch_open, handler_close.
  rewrite <- !app_assoc. cbn [In] in Hin.
  destruct Hin as [<-|[<-|[<-|[<-|[<-|[<-|[]]]]]]]; find_literal.
Qed.

(** X5: a document that lacks one of the literal pieces of the pattern is
    returned as it is. *)
Theorem missing_literal_unchanged doc lit :
  In lit [ text "export const "; decl_params; text "try {";
           text "} catch (error"; text ") {"; text "};" ] ->
  contains lit doc = false ->
  refactor_controller doc = doc.
Proof.
  intros Hin Hlit.
  assert (Hnone : search pattern doc = None).
  { apply search_None. intros p t ->.
    destruct (match_at pattern t) as [[g rest]|] eqn:Hm; [|reflexivity].
    rewrite (match_contains p _ Hm Hin) in Hlit. discriminate. }
  rewrite refactor_controller_step. now rewrite Hnone.
Qed.

(** ** How passes compose *)

Lemma search_skip pre rest :
  no_decl_in pre rest = true ->
  search pattern (pre ++ rest) =
  match search pattern rest with
  | Some (p, g, m, r) => Some (pre ++ p, g, m, r)
  | None => None
  end.
Proof.
  induction pre as [|c pre IH]; intros H.
  - cbn [app]. now destruct (search pattern rest) as [[[[? ?] ?] ?]|].
  - cbn [no_decl_in] in H. apply andb_true_iff in H as [Hd H].
    apply negb_true_iff in Hd. apply not_decl_no_match in Hd.
    cbn [app search] in *. rewrite Hd, (IH H).
    now destruct (search pattern rest) as [[[[? ?] ?] ?]|].
Qed.

(** X6: text in which no declaration of the target shape starts is copied, and
    the script goes on with what follows as if it came first. *)
Theorem prefix_passes pre rest :
  no_decl_in pre rest = true ->
  refactor_controller (pre ++ rest) = pre ++ refactor_controller rest.
Proof.
  intros H.
  rewrite (refactor_controller_step (pre ++ rest)), (refactor_controller_step rest).
  rewrite (search_skip _ _ H).
  destruct (search pattern rest) as [[[[p g] m] r]|]; [|reflexivity].
  now rewrite <- app_assoc.
Qed.

(** X7: a document that starts with a match is the replacement of the match
    followed by the result for the rest of the document: what comes after a
    match is treated on its own. *)
Theorem leading_match_replaced doc g rest :
  match_at pattern doc = Some (g, rest) ->
  refactor_controller doc = replace_func g ++ refactor_controller rest.
Proof.
  intros H. rewrite refactor_controller_step at 1.
  now rewrite (search_here _ _ H).
Qed.

(** ** More on the body rewriter *)

Lemma map_clean_line_same ls :
  forallb (fun line => leading_spaces line <? 4) ls = true ->
  map clean_line ls = ls.
Proof.
  induction ls as [|l ls IH]; simpl; intros H; [reflexivity|].
  apply andb_true_iff in H as [Hl H]. apply Nat.ltb_lt in Hl.
  rewrite IH by assumption. f_equal. now apply clean_line_spec.
Qed.

(** X8: a body none of whose lines starts with four spaces (one indented with
    tabs or with two spaces, say) keeps its indentation: only the white space
    at its end is trimmed. *)
Theorem unindented_body_kept body :
  forallb (fun line => leading_spaces line <? 4) (split nl body) = true ->
  clean_body body = rstrip body.
Proof.
  intros H. unfold clean_body.
  now rewrite cleaned_lines_map, map_clean_line_same, join_split.
Qed.

Lemma dedent_forallb (P : char -> bool) b s t :
  dedent b s t -> forallb P s = true -> forallb P t = true.
Proof.
  induction 1 as [b|s t _ IH|b c s t _ IH]; intros Hs.
  - reflexivity.
  - rewrite forallb_app in Hs. apply andb_true_iff in Hs as [_ Hs]. auto.
  - simpl in *. apply andb_true_iff in Hs as [Hc Hs]. rewrite Hc. auto.
Qed.

Lemma lstrip_spaces s : forallb is_space s = true -> lstrip s = [].
Proof.
  induction s as [|c s IH]; simpl; intros H; [reflexivity|].
  apply andb_true_iff in H as [Hc H]. rewrite Hc. auto.
Qed.

(** X9: a body of white space alone, the empty body among them, is cleaned to
    the empty text. *)
Theorem blank_body_emptied body :
  forallb is_space body = true -> clean_body body = [].
Proof.
  intros H. unfold clean_body, rstrip.
  rewrite lstrip_spaces; [reflexivity|].
  rewrite forallb_rev.
  eapply dedent_forallb; [apply clean_body_dedent|assumption].
Qed.

(** ** Where the match ends *)

Lemma catch_re_parses ann g : ann_ok ann -> parses catch_re (catch_open ann) g g.
Proof.
  intros Hann. unfold catch_re, catch_open.
  apply parses_Seq with (g1 := g); [constructor|].
  apply parses_Seq with (g1 := g); [|constructor].
  destruct Hann as [->|(w & -> & Hw)].
  - apply parses_Opt_none.
  - apply parses_Opt_some.
    apply parses_Seq with (g1 := g); [constructor|].
    apply parses_Seq with (g1 := g); constructor; auto.
Qed.

Lemma close_re_parses e g :
  all_in Space e -> parses close_re (text "}" ++ e ++ text "};") g g.
Proof.
  intros He. unfold close_re.
  apply parses_Seq with (g1 := g); [constructor|].
  apply parses_Seq with (g1 := g); constructor; auto.
Qed.

Lemma tail_re_matches A ann x e r g (k : str -> groups -> option A) :
  ann_ok ann -> all_in Space e -> k r g <> None ->
  rmatch tail_re (catch_open ann ++ x ++ text "}" ++ e ++ text "};" ++ r) g k <> None.
Proof.
  intros Hann He Hk.
  replace (catch_open ann ++ x ++ text "}" ++ e ++ text "};" ++ r)
    with ((catch_open ann ++ x ++ text "}" ++ e ++ text "};") ++ r)
    by now rewrite <- !app_assoc.
  eapply rmatch_complete; [now apply tail_re_parses|assumption].
Qed.

Lemma close_re_matches A e r g (k : str -> groups -> option A) :
  all_in Space e -> k r g <> None ->
  rmatch close_re (text "}" ++ e ++ text "};" ++ r) g k <> None.
Proof.
  intros He Hk.
  replace (text "}" ++ e ++ text "};" ++ r)
    with ((text "}" ++ e ++ text "};") ++ r) by now rewrite <- !app_assoc.
  eapply rmatch_complete; [now apply close_re_parses|assumption].
Qed.

(** The shape of every match of [pattern] with the two points where its
    non-greedy parts stop: the body before the first catch opening, the
    catch block before the first closing of a handler. *)
Lemma match_at_pattern_ends s g rest :
  match_at pattern s = Some (g, rest) ->
  exists h, handler_ok h /\ s = handler_text h ++ rest /\ g = handler_groups h /\
    (forall w1 w2, h_body h = w1 ++ w2 -> w2 <> [] ->
       ~ opens_catch (w2 ++ catch_open (h_ann h) ++ handler_close h ++ rest)) /\
    (forall x1 x2, h_catch h = x1 ++ x2 -> x2 <> [] ->
       ~ closes (x2 ++ text "}" ++ h_end h ++ text "};" ++ rest)).
Proof.
  unfold match_at, pattern; intros H.
  rewrite rmatch_Seq in H. apply rmatch_sound in H as (w1 & s1 & g1 & -> & P1 & H).
  rewrite rmatch_Seq in H. apply rmatch_sound in H as (w2 & s2 & g2 & -> & P2 & H).
  rewrite rmatch_Seq in H. apply rmatch_sound in H as (w3 & s3 & g3 & -> & P3 & H).
  rewrite rmatch_Seq in H. apply rmatch_sound in H as (w4 & s4 & g4 & -> & P4 & H).
  rewrite rmatch_Seq, rmatch_Group_LazyStar in H.
  apply lazy_sound in H as (body & s5 & -> & _ & H & Hmin).
  rewrite consumed_app in H.
  unfold tail_re in H. rewrite rmatch_Seq in H.
  apply rmatch_sound in H as (w6 & s6 & g6 & -> & P6 & H).
  rewrite rmatch_Seq in H.
  change (lazy Any s6 (fun s' => rmatch close_re s' g6
                                   (fun (s'' : list N) (g : groups) => Some (g, s'')))
          = Some (g, rest)) in H.
  apply lazy_sound in H as (x & s7 & -> & _ & H & Hmin2).
  apply rmatch_sound in H as (w8 & s8 & g8 & -> & P8 & H).
  inv H.
  inv P1. inv P2. inv P3. inv P4.
  match goal with H : parses decl_re _ _ _ |- _ =>
    apply parses_decl_re in H as (name & Hne & Hname & -> & ->) end.
  match goal with H : parses trace_re _ _ _ |- _ =>
    apply parses_trace_re in H as (Htr & ->) end.
  apply parses_catch_re in P6 as (ann & Hann & -> & ->).
  apply parses_close_re in P8 as (e & He & -> & ->).
  exists (Handler name w2 w3 body ann x e).
  split; [|split; [|split; [|split]]].
  - repeat split; auto.
  - unfold handler_text, handler_decl, handler_close; hsimpl.
    now rewrite <- !app_assoc.
  - reflexivity.
  - hsimpl. intros v1 v2 Hb Hv2 Hopen.
    unfold handler_close in Hopen; hsimpl in Hopen.
    destruct (@opens_catch_before v2 _ _ Hv2 Hopen) as (ann' & l & Hann' & ->).
    pose proof (Hmin v1 _ Hb Hv2) as Hnone.
    match type of Hnone with
    | rmatch _ ?T _ _ = _ =>
        assert (ET : T = catch_open ann' ++ (l ++ catch_open ann ++ x) ++
                         text "}" ++ e ++ text "};" ++ rest)
          by now rewrite <- !app_assoc
    end.
    unfold tail_re in ET. rewrite ET in Hnone. revert Hnone.
    apply (tail_re_matches (A := groups * list N)); [assumption|assumption|discriminate].
  - hsimpl. intros x1 x2 Hx Hx2 (e' & r' & He' & Ec).
    pose proof (Hmin2 x1 _ Hx Hx2) as Hnone.
    match type of Hnone with
    | rmatch _ ?T _ _ = _ =>
        assert (ET : T = text "}" ++ e' ++ text "};" ++ r')
          by now rewrite <- Ec, <- !app_assoc
    end.
    rewrite ET in Hnone. revert Hnone.
    apply (close_re_matches (A := groups * list N)); [assumption|discriminate].
Qed.

(** X3: in every match, the catch block ends where the first closing of a
    handler starts after the catch opening: a closing brace, white space or
    none, and [};].  The match is the text of a handler whose declaration,
    trace statement and body are the three captures; its body is the text
    from [try {] to the first catch opening, and no position inside its
    catch block starts a closing, whatever the nesting of braces, so a catch
    block that holds such a closing of its own is cut there. *)
Theorem match_ends_at_first_close s g rest :
  match_at pattern s = Some (g, rest) ->
  exists h,
    handler_ok h /\ s = handler_text h ++ rest /\ g = handler_groups h /\
    (forall i, i < length (h_body h) ->
       ~ opens_catch (skipn i (h_body h ++ catch_open (h_ann h)
                               ++ handler_close h ++ rest))) /\
    closes (skipn (length (h_catch h)) (handler_close h ++ rest)) /\
    forall i, i < length (h_catch h) ->
      ~ closes (skipn i (handler_close h ++ rest)).
Proof.
  intros H. apply match_at_pattern_ends in H as (h & Hok & -> & -> & Hbody & Hmin).
  exists h. split; [assumption|]. split; [reflexivity|]. split; [reflexivity|].
  split.
  - intros i Hi. rewrite skipn_app.
    replace (i - length (h_body h)) with 0 by lia. cbn [skipn].
    apply Hbody with (w1 := firstn i (h_body h)).
    + symmetry. apply firstn_skipn.
    + intros E. apply (f_equal (@length _)) in E.
      rewrite length_skipn in E. simpl in E. lia.
  - unfold handler_close. rewrite <- !app_assoc. split.
    + rewrite skipn_length_app. exists (h_end h), rest.
      split; [apply Hok|reflexivity].
    + intros i Hi. rewrite skipn_app.
      replace (i - length (h_catch h)) with 0 by lia. cbn [skipn].
      apply Hmin with (x1 := firstn i (h_catch h)).
      * symmetry. apply firstn_skipn.
      * intros E. apply (f_equal (@length _)) in E.
        rewrite length_skipn in E. simpl in E. lia.
Qed.

(** ** A handler, printed and matched again *)

Lemma occurs_here r t : match_at r t <> None -> occurs r t = true.
Proof.
  intros H. destruct t; cbn [occurs];
    destruct (match_at r _); try congruence; reflexivity.
Qed.

Lemma occurs_app r a t : occurs r t = true -> occurs r (a ++ t) = true.
Proof.
  intros H. induction a as [|c a IH]; [assumption|].
  cbn [app occurs]. rewrite IH. apply orb_true_r.
Qed.

Lemma occurs_parses r a w b g :
  parses r w [] g -> occurs r (a ++ w ++ b) = true.
Proof.
  intros P. apply occurs_app, occurs_here. now apply match_at_complete with (g := g).
Qed.

Lemma no_occurs_no_catch body : occurs catch_re body = false -> ~ has_catch body.
Proof.
  intros H (a & t & -> & ann & r & Hann & ->).
  rewrite (occurs_parses a r (catch_re_parses [] Hann)) in H. discriminate.
Qed.

Lemma space_run_unique a a' X X' :
  all_in Space a -> all_in Space a' ->
  starts_nonspace X -> starts_nonspace X' ->
  a ++ X = a' ++ X' -> a = a' /\ X = X'.
Proof.
  unfold all_in. revert a'; induction a as [|c a IH]; intros [|c' a'] Ha Ha' HX HX' E;
    simpl in *.
  - auto.
  - subst X. simpl in HX. apply andb_true_iff in Ha' as [Hc _]. congruence.
  - subst X'. simpl in HX'. apply andb_true_iff in Ha as [Hc _]. congruence.
  - injection E as -> E. apply andb_true_iff in Ha as [_ Ha].
    apply andb_true_iff in Ha' as [_ Ha'].
    destruct (IH a' Ha Ha' HX HX' E) as [-> ->]. auto.
Qed.

Lemma trace_try_nonspace tr Z : trace_ok tr -> starts_nonspace (tr ++ text "try {" ++ Z).
Proof. intros [->|(w & -> & _)]; reflexivity. Qed.

(** The first point where a property holds is unique. *)
Lemma first_stop_unique (Q : str -> Prop) b t b' t' :
  b ++ t = b' ++ t' -> Q t -> Q t' ->
  (forall w1 w2, b = w1 ++ w2 -> w2 <> [] -> ~ Q (w2 ++ t)) ->
  (forall w1 w2, b' = w1 ++ w2 -> w2 <> [] -> ~ Q (w2 ++ t')) ->
  b = b' /\ t = t'.
Proof.
  intros E Ht Ht' Hmin Hmin'.
  apply app_eq_app in E as [l [[-> ->]|[-> ->]]].
  - destruct l as [|c l]; [now rewrite app_nil_r|].
    exfalso. apply (Hmin b' (c :: l)); [reflexivity|discriminate|assumption].
  - destruct l as [|c l]; [now rewrite app_nil_r|].
    exfalso. apply (Hmin' b (c :: l)); [reflexivity|discriminate|assumption].
Qed.

Lemma not_space_59 E (X r : str) :
  all_in Space E -> E ++ text "};" ++ X = 59%N :: r -> False.
Proof.
  unfold all_in. intros HE Eq. destruct E as [|c E]; simpl in *.
  - discriminate.
  - injection Eq as -> _. discriminate.
Qed.

(** A closing that starts inside a text followed by a closing lies inside
    the text. *)
Lemma closes_before x2 E rest :
  x2 <> [] -> all_in Space E ->
  closes (x2 ++ text "}" ++ E ++ text "};" ++ rest) ->
  exists e l, all_in Space e /\ x2 = text "}" ++ e ++ text "};" ++ l.
Proof.
  intros Hx HE (e & r & He & Eq).
  destruct x2 as [|c y]; [congruence|].
  change (text "}") with [brace] in *. cbn [app] in Eq.
  injection Eq as -> Eq.
  apply app_eq_app in Eq as [l [[-> Eq]|[-> Eq]]].
  - destruct l as [|c1 [|c2 l]].
    + exfalso. cbn [app] in Eq. injection Eq as Eq. symmetry in Eq.
      now apply not_space_59 in Eq.
    + exfalso. cbn [app] in Eq. injection Eq as _ Eq. discriminate.
    + cbn [app] in Eq. injection Eq as <- <- _.
      exists e, l. split; [assumption|reflexivity].
  - destruct l as [|c l].
    + exfalso. cbn [app] in Eq. injection Eq as Eq.
      now apply not_space_59 in Eq.
    + exfalso. cbn [app] in Eq. injection Eq as <- _.
      unfold all_in in He. rewrite forallb_app in He.
      apply andb_true_iff in He as [_ He]. simpl in He. discriminate.
Qed.

Lemma no_occurs_no_close cat a e l :
  occurs close_re cat = false -> all_in Space e ->
  cat <> a ++ text "}" ++ e ++ text "};" ++ l.
Proof.
  intros H He ->.
  replace (a ++ text "}" ++ e ++ text "};" ++ l)
    with (a ++ (text "}" ++ e ++ text "};") ++ l) in H
    by now rewrite <- !app_assoc.
  rewrite (occurs_parses a l (close_re_parses [] He)) in H. discriminate.
Qed.

Lemma ann_unique ann ann' C C' :
  ann_ok ann -> ann_ok ann' ->
  ann ++ text ") {" ++ C = ann' ++ text ") {" ++ C' -> ann = ann' /\ C = C'.
Proof.
  intros [->|(w & -> & Hw)] [->|(w' & -> & Hw')] E.
  - rewrite !app_nil_l in E. apply app_inv_head in E. auto.
  - discriminate.
  - discriminate.
  - rewrite <- !app_assoc in E. apply app_inv_head in E.
    apply space_run_unique in E as [-> E]; try assumption; try reflexivity.
    apply app_inv_head in E. apply app_inv_head in E. auto.
Qed.

Lemma trace_unique tr tr' B B' :
  trace_ok tr -> trace_ok tr' ->
  tr ++ text "try {" ++ B = tr' ++ text "try {" ++ B' -> tr = tr' /\ B = B'.
Proof.
  intros [->|(w & -> & Hw)] [->|(w' & -> & Hw')] E.
  - rewrite !app_nil_l in E. apply app_inv_head in E. auto.
  - discriminate.
  - discriminate.
  - rewrite <- !app_assoc in E. apply app_inv_head in E.
    apply space_run_unique in E as [-> E]; try assumption; try reflexivity.
    apply app_inv_head in E. auto.
Qed.

(** X4: printing and matching: the text of a handler whose body holds no catch
    opening and whose catch block holds no closing of a handler is matched
    as that handler, each capture being the part it was printed from, up to
    the end of the handler and no further; the script replaces it by the
    wrapped handler and goes on with the rest of the document. *)
Theorem handler_round_trip h rest :
  handler_ok h ->
  occurs catch_re (h_body h) = false ->
  occurs close_re (h_catch h) = false ->
  match_at pattern (handler_text h ++ rest) = Some (handler_groups h, rest) /\
  refactor_controller (handler_text h ++ rest) =
    ((text "export const " ++ h_name h ++ text " = asyncHandler(async (" ++ params)
     ++ [nl] ++ h_trace h ++ clean_body (h_body h) ++ [nl] ++ text "});")
    ++ refactor_controller rest.
Proof.
  intros Hok Hbody Hcatch.
  assert (Hm : match_at pattern (handler_text h ++ rest) = Some (handler_groups h, rest)).
  { destruct (match_at pattern (handler_text h ++ rest)) as [[g' rest']|] eqn:Hm.
    2:{ exfalso. revert Hm. eapply match_at_complete. now apply pattern_parses. }
    apply match_at_pattern_ends in Hm as (h' & Hok' & E & -> & Hmin1 & Hmin2).
    destruct Hok as (Hne & Hname & Hgap & Htr & Hann & Hend).
    destruct Hok' as (Hne' & Hname' & Hgap' & Htr' & Hann' & Hend').
    destruct h as [n gap tr body ann cat e].
    destruct h' as [n' gap' tr' body' ann' cat' e'].
    unfold handler_groups, handler_text, handler_decl, handler_close in *.
    hsimpl in Hbody. hsimpl in Hcatch. hsimpl in Hname. hsimpl in Hname'.
    hsimpl in Hgap. hsimpl in Hgap'. hsimpl in Htr. hsimpl in Htr'.
    hsimpl in Hann. hsimpl in Hann'. hsimpl in Hend. hsimpl in Hend'.
    hsimpl in Hmin1. hsimpl in Hmin2. hsimpl in E. hsimpl.
    rewrite <- !app_assoc in E. apply app_inv_head in E.
    change decl_params
      with (space :: text "= async (req: RequestWithTraceContext, res: Response) => {") in E.
    apply word_run_unique in E as [<- E]; try assumption.
    apply app_inv_head in E.
    apply space_run_unique in E as [<- E]; try assumption;
      try now apply trace_try_nonspace.
    apply trace_unique in E as [<- E]; try assumption.
    apply (first_stop_unique opens_catch) in E as [<- E].
    2:{ exists ann, (cat ++ text "}" ++ e ++ text "};" ++ rest). auto. }
    2:{ exists ann', (cat' ++ text "}" ++ e' ++ text "};" ++ rest'). auto. }
    2:{ intros w1 w2 Hb Hw2 Hopen.
        destruct (@opens_catch_before w2 _ _ Hw2 Hopen) as (ann2 & l & Hann2 & ->).
        apply (no_occurs_no_catch Hbody).
        exists w1, (catch_open ann2 ++ l). split; [assumption|].
        exists ann2, l. auto. }
    2:{ intros w1 w2 Hb Hw2 Hopen. apply (Hmin1 w1 w2 Hb Hw2).
        now rewrite <- !app_assoc. }
    unfold catch_open in E. rewrite <- !app_assoc in E. apply app_inv_head in E.
    apply ann_unique in E as [<- E]; try assumption.
    apply (first_stop_unique closes) in E as [<- E].
    2:{ exists e, rest. auto. }
    2:{ exists e', rest'. auto. }
    2:{ intros x1 x2 Hx Hx2 Hcl.
        destruct (@closes_before x2 e rest Hx2 Hend Hcl) as (e2 & l & He2 & ->).
        now apply (no_occurs_no_close x1 l Hcatch He2). }
    2:{ exact Hmin2. }
    apply app_inv_head in E.
    apply space_run_unique in E as [<- E]; try assumption; try reflexivity.
    apply app_inv_head in E. subst rest'. reflexivity. }
  split; [assumption|].
  rewrite refactor_controller_step at 1.
  rewrite (search_here _ _ Hm). cbn [app].
  now rewrite (replace_func_handler Hok).
Qed.

End Engine.

(** C1, as stated, fails: whatever the word characters beyond ASCII, the
    script turns the scenario input into [scenario_output], which has a line
    of two spaces that the expected text does not have; and with the margin
    of the listing kept on every line the result is not the expected text
    either. *)
Lemma scenario_expected_not_returned :
  (forall ua, refactor_controller ua scenario_input = scenario_output) /\
  scenario_output <> scenario_expected /\
  (forall ua, refactor_controller ua scenario_input_margin <> scenario_expected_margin).
Proof.
  split; [intros ua; vm_compute; reflexivity|].
  split; [vm_compute; discriminate|exact scenario_margin_result].
Qed.

(** The body of the nested example stops before its inner catch. *)
Lemma body_ends_at_first_catch_witness :
  match_at ascii_words pattern nested_input = Some (nested_groups, []) /\
  exists head body tail,
    nested_input = head ++ text "try {" ++ body ++ tail /\
    group nested_groups 3 = Some body /\
    opens_catch ascii_words (skipn (length body) (body ++ tail)) /\
    forall i, i < length body -> ~ opens_catch ascii_words (skipn i (body ++ tail)).
Proof.
  split; [vm_compute; reflexivity|].
  apply (@body_ends_at_first_catch ascii_words nested_input nested_groups []).
  vm_compute; reflexivity.
Defined.

(** The second handler alone holds no match and is returned as it is. *)
Lemma no_match_unchanged_witness :
  finditer ascii_words pattern second_handler = [] /\
  refactor_controller ascii_words second_handler = second_handler.
Proof.
  split; [vm_compute; reflexivity|].
  apply no_match_unchanged. vm_compute; reflexivity.
Defined.

(** C5, as stated, fails: [inner_handler_input] is the text of one handler
    of the target shape, and two passes over it do not give what one pass
    gives.  The first match ends at the [} };] of the object literal in the
    catch block; the declaration inside the try block is copied into the
    replacement, and in the second pass it starts a match that runs to the
    catch opening and the closing left over from the catch block. *)
Lemma second_pass_changes_more :
  (forall ua, handler_ok ua inner_handler) /\
  inner_handler_input = handler_text inner_handler /\
  (forall ua, refactor_controller ua inner_handler_input = inner_handler_once) /\
  (forall ua, refactor_controller ua inner_handler_once = inner_handler_twice) /\
  inner_handler_twice <> inner_handler_once /\
  (forall ua, refactor_controller ua (refactor_controller ua inner_handler_input)
              <> refactor_controller ua inner_handler_input).
Proof.
  split.
  { intros ua. unfold handler_ok. split; [discriminate|]. split; [reflexivity|].
    split; [reflexivity|]. split; [now left|]. split; [now left|reflexivity]. }
  split; [vm_compute; reflexivity|].
  split; [intros ua; vm_compute; reflexivity|].
  split; [intros ua; vm_compute; reflexivity|].
  split; [vm_compute; discriminate|].
  intros ua. vm_compute. discriminate.
Qed.

(** One handler with an object literal in its catch block: the match ends
    at the [} };] of the literal, the rest of the catch block is kept, and a
    second pass changes nothing. *)
Lemma second_pass_unchanged_witness :
  match_at ascii_words pattern early_close_input
  = Some (early_close_groups, early_close_rest) /\
  (early_close_rest = [] \/ no_decl_in ascii_words (tl early_close_input) [] = true) /\
  refactor_controller ascii_words early_close_input
  = replace_func early_close_groups ++ early_close_rest /\
  finditer ascii_words pattern (refactor_controller ascii_words early_close_input) = [] /\
  refactor_controller ascii_words (refactor_controller ascii_words early_close_input)
  = refactor_controller ascii_words early_close_input.
Proof.
  split; [vm_compute; reflexivity|].
  split; [right; vm_compute; reflexivity|].
  apply (@second_pass_unchanged ascii_words early_close_input early_close_groups
           early_close_rest).
  - vm_compute; reflexivity.
  - right. vm_compute; reflexivity.
Defined.

(** The declaration of the scenario, rewritten. *)
Lemma declaration_rewriter_witness :
  match_at ascii_words pattern scenario_input = Some (scenario_groups, []) /\
  exists name,
    name <> [] /\ all_in ascii_words Word name /\
    group scenario_groups 1 = Some (text "export const " ++ name ++ text " = async (" ++ params) /\
    wrap_decl (group_text scenario_groups 1) =
      text "export const " ++ name ++ text " = asyncHandler(async (" ++ params /\
    exists tl, replace_func scenario_groups
               = wrap_decl (group_text scenario_groups 1) ++ nl :: tl.
Proof.
  split; [vm_compute; reflexivity|].
  apply (@declaration_rewriter ascii_words scenario_input scenario_groups []).
  vm_compute; reflexivity.
Defined.

(** The script run with its own name as only argument. *)
Lemma missing_argument_witness :
  length [text "refactor_controllers.py"] <= 1 /\
  main ascii_words [text "refactor_controllers.py"] (fun _ => None)
  = (fun _ => None, [Printed usage], Exit 1) /\ 1 <> 0.
Proof.
  split; [simpl; lia|].
  apply missing_argument. simpl; lia.
Defined.



(** C10, as stated, fails: the third handler has a declaration of the
    target shape followed by another statement than the trace statement, and
    on the first handler followed by the third the script returns
    [first_third_output], in which the third handler is not found as it
    was. *)
Lemma other_statement_rewritten :
  third_handler = declaration (text "third") ++ third_after /\
  (forall ua, all_in ua Word (text "third")) /\
  startswith trace_stmt (lstrip third_after) = false /\
  startswith (text "try {") (lstrip third_after) = false /\
  (forall ua, refactor_controller ua (first_handler ++ third_handler)
              = first_third_output) /\
  ~ exists a b, first_third_output = a ++ third_handler ++ b.
Proof.
  split; [reflexivity|].
  split; [intros ua; vm_compute; reflexivity|].
  split; [vm_compute; reflexivity|].
  split; [vm_compute; reflexivity|].
  split; [exact first_third_result|].
  apply not_contains. vm_compute; reflexivity.
Qed.

(** The third handler after the scenario input: it starts no match and is
    found unchanged in the output. *)
Lemma trace_statement_must_match_witness :
  all_in ascii_words Word (text "third") /\
  startswith trace_stmt (lstrip (third_after ++ [])) = false /\
  startswith (text "try {") (lstrip (third_after ++ [])) = false /\
  match_at ascii_words pattern ((declaration (text "third") ++ third_after) ++ []) = None /\
  exists a b,
    refactor_controller ascii_words
      ((scenario_input ++ [nl; nl]) ++ (declaration (text "third") ++ third_after) ++ [])
    = a ++ (declaration (text "third") ++ third_after) ++ b.
Proof.
  split; [vm_compute; reflexivity|].
  split; [vm_compute; reflexivity|].
  split; [vm_compute; reflexivity|].
  destruct (@trace_statement_must_match ascii_words (scenario_input ++ [nl; nl])
              (text "third") third_after []) as (H1 & _ & H3);
    try (vm_compute; reflexivity).
  split; [exact H1|].
  apply H3. apply clear_ofb_Forall. vm_compute; reflexivity.
Defined.

(** ** The further properties at the examples *)

Lemma scenario_handler_ok : handler_ok ascii_words scenario_handler.
Proof.
  unfold handler_ok. split; [discriminate|]. split; [reflexivity|].
  split; [reflexivity|]. split; [|split; [|reflexivity]].
  - right. exists (lines [ ""; "  " ]%string). split; reflexivity.
  - right. exists [space]. split; reflexivity.
Defined.

Lemma handler_is_matched_witness :
  handler_ok ascii_words scenario_handler /\
  match_at ascii_words pattern (handler_text scenario_handler ++ []) <> None /\
  finditer ascii_words pattern ([] ++ handler_text scenario_handler ++ []) <> [].
Proof.
  split; [exact scenario_handler_ok|].
  apply handler_is_matched. exact scenario_handler_ok.
Defined.


Lemma match_ends_at_first_close_witness :
  match_at ascii_words pattern scenario_input = Some (scenario_groups, []) /\
  exists h,
    handler_ok ascii_words h /\ scenario_input = handler_text h ++ [] /\
    scenario_groups = handler_groups h /\
    (forall i, i < length (h_body h) ->
       ~ opens_catch ascii_words
           (skipn i (h_body h ++ catch_open (h_ann h) ++ handler_close h ++ []))) /\
    closes ascii_words (skipn (length (h_catch h)) (handler_close h ++ [])) /\
    forall i, i < length (h_catch h) ->
      ~ closes ascii_words (skipn i (handler_close h ++ [])).
Proof.
  split; [vm_compute; reflexivity|].
  apply (@match_ends_at_first_close ascii_words scenario_input scenario_groups []).
  vm_compute; reflexivity.
Defined.

Lemma missing_literal_unchanged_witness :
  In (text "} catch (error")
     [ text "export const "; decl_params; text "try {";
       text "} catch (error"; text ") {"; text "};" ] /\
  contains (text "} catch (error") first_handler = false /\
  refactor_controller ascii_words first_handler = first_handler.
Proof.
  split; [simpl; auto|]. split; [vm_compute; reflexivity|].
  apply missing_literal_unchanged with (lit := text "} catch (error").
  - simpl; auto.
  - vm_compute; reflexivity.
Defined.

Lemma prefix_passes_witness :
  no_decl_in ascii_words (second_handler ++ [nl; nl]) scenario_input = true /\
  refactor_controller ascii_words ((second_handler ++ [nl; nl]) ++ scenario_input)
  = (second_handler ++ [nl; nl]) ++ refactor_controller ascii_words scenario_input.
Proof.
  split; [vm_compute; reflexivity|].
  apply prefix_passes. vm_compute; reflexivity.
Defined.

Lemma leading_match_replaced_witness :
  match_at ascii_words pattern (scenario_input ++ [nl; nl] ++ second_handler)
  = Some (scenario_groups, [nl; nl] ++ second_handler) /\
  refactor_controller ascii_words (scenario_input ++ [nl; nl] ++ second_handler)
  = replace_func scenario_groups
    ++ refactor_controller ascii_words ([nl; nl] ++ second_handler).
Proof.
  split; [vm_compute; reflexivity|].
  apply leading_match_replaced. vm_compute; reflexivity.
Defined.

Lemma unindented_body_kept_witness :
  forallb (fun line => leading_spaces line <? 4) (split nl tab_body) = true /\
  clean_body tab_body = rstrip tab_body.
Proof.
  split; [vm_compute; reflexivity|].
  apply unindented_body_kept. vm_compute; reflexivity.
Defined.

Lemma blank_body_emptied_witness :
  forallb is_space [nl; space; space] = true /\ clean_body [nl; space; space] = [].
Proof.
  split; [vm_compute; reflexivity|].
  apply blank_body_emptied. vm_compute; reflexivity.
Defined.

Lemma handler_round_trip_witness :
  handler_ok ascii_words scenario_handler /\
  occurs ascii_words catch_re (h_body scenario_handler) = false /\
  occurs ascii_words close_re (h_catch scenario_handler) = false /\
  match_at ascii_words pattern (handler_text scenario_handler ++ [])
  = Some (handler_groups scenario_handler, []) /\
  refactor_controller ascii_words (handler_text scenario_handler ++ []) =
    ((text "export const " ++ h_name scenario_handler
      ++ text " = asyncHandler(async (" ++ params)
     ++ [nl] ++ h_trace scenario_handler ++ clean_body (h_body scenario_handler)
     ++ [nl] ++ text "});")
    ++ refactor_controller ascii_words [].
Proof.
  split; [exact scenario_handler_ok|].
  split; [vm_compute; reflexivity|]. split; [vm_compute; reflexivity|].
  apply handler_round_trip; [exact scenario_handler_ok| |]; vm_compute; reflexivity.
Defined.
